(** * Vector clocks and the persistent trie of [src/lib/persistent/trie.ts]

    A shallow embedding of the container/trie engine: vector clocks as
    finite maps from replica identifiers to JavaScript numbers, trie nodes
    as a tagged union of versioned value leaves and branches, and the
    operations [get], [set], [happensBefore], [merge], [mergeTries],
    [mergeClocks] and [toValue] as Rocq functions on immutable trees. A
    second embedding of [setInTrie] and [set] keeps the [Map] objects in a
    store, and is shown to compute the same trees without writing to any
    map it was given. *)

From stdpp Require Import gmap strings list fin_maps pretty.

Set Warnings "-register-all,-clear-no-such-hyp".

Module Persistent.

Local Open Scope Z_scope.

(** ** JavaScript values, as far as clocks use them

    The code computes counters with [0], [+ 1], [Math.max] and the
    comparisons. A [number] is embedded as an integer (the integers are
    exact doubles up to [2^53] in magnitude, and [+ 1] rounds beyond), or
    [NaN], which is what [undefined + 1] evaluates to. A clock is typed to
    hold numbers only, but [version[id] + 1] stores a string when the read
    finds a member of [Object.prototype]: [Text s] is such a string. It is
    not a numeral and not empty: it is truthy, and [NaN] where a number is
    expected. *)

Inductive number :=
  | Num (n : Z)
  | NaN
  | Text (s : string).

Global Instance number_eq_dec : EqDecision number.
Proof. solve_decision. Defined.

(** [x || 0] where [x] is the result of a property read: [undefined], [0]
    and [NaN] are falsy. *)
Definition or_zero (x : option number) : number :=
  match x with
  | Some (Num n) => Num n
  | Some NaN | None => Num 0
  | Some (Text s) => Text s
  end.

(** [x > y] and [x < y]: two numbers compare as numbers and two strings
    by their code units; a string against a number is converted to [NaN],
    and every comparison with [NaN] is false. *)
Definition num_gt (x y : number) : bool :=
  match x, y with
  | Num m, Num n => bool_decide (n < m)
  | Text s, Text t => String.ltb t s
  | _, _ => false
  end.

Definition num_lt (x y : number) : bool :=
  match x, y with
  | Num m, Num n => bool_decide (m < n)
  | Text s, Text t => String.ltb s t
  | _, _ => false
  end.

(** [Math.max(x, y)] converts both arguments to numbers. *)
Definition num_max (x y : number) : number :=
  match x, y with
  | Num m, Num n => Num (m `max` n)
  | _, _ => NaN
  end.

(** [n + 1] on the doubles that are integers: exact up to [2^53]; from
    there the doubles are two apart up to [2^54], and the sum, half way
    between two of them, is rounded to the one with the even mantissa;
    beyond [2^54] the sum is rounded back to [n]. *)
Definition double_succ (n : Z) : Z :=
  if decide (- 2 ^ 53 ≤ n < 2 ^ 53) then n + 1
  else if decide (Z.abs n < 2 ^ 54 ∧ n `mod` 4 = 2) then n + 2
  else n.

(** [x + 1] where [x] is the result of a property read; with a string it
    is the concatenation. *)
Definition plus_one (x : option number) : number :=
  match x with
  | Some (Num n) => Num (double_succ n)
  | Some NaN | None => NaN
  | Some (Text s) => Text (s +:+ "1")
  end.

(** ** Vector clocks

    A clock is a plain object: a finite map of own properties, whose reads
    fall back on [Object.prototype]. *)

Abbreviation VectorClock := (gmap string number).

(** The members of [Object.prototype], as the reads of this code see them:
    converted to a primitive, which for a function is its source text and
    for the object behind [__proto__] is [[object Object]]. *)
Definition native (name : string) : option number :=
  Some (Text ("function " +:+ name +:+ "() { [native code] }")).

Definition member (key : string) : option number :=
  if decide (key = "constructor") then native "Object"
  else if bool_decide
            (key ∈ ["toString"; "toLocaleString"; "valueOf";
                    "hasOwnProperty"; "isPrototypeOf";
                    "propertyIsEnumerable";
                    "__defineGetter__"; "__defineSetter__";
                    "__lookupGetter__"; "__lookupSetter__"])
       then native key
  else if decide (key = "__proto__") then Some (Text "[object Object]")
  else None.

(** [clock[key]]: the own property, else the inherited member, else
    [undefined]. *)
Definition get_property (clock : VectorClock) (key : string)
    : option number :=
  match clock !! key with
  | Some x => Some x
  | None => member key
  end.

(** [clock[key] = x]: the own property is written, or created; without an
    own property [__proto__] the assignment goes to the setter inherited
    from [Object.prototype], which ignores a primitive. *)
Definition assign (key : string) (x : number) (clock : VectorClock)
    : VectorClock :=
  if decide (key = "__proto__" ∧ clock !! key = None) then clock
  else <[key := x]> clock.

(** The clocks of the data model: every entry is a non-negative integer
    counter. *)
Definition is_counter (x : number) : bool :=
  match x with
  | Num n => bool_decide (0 ≤ n)
  | NaN | Text _ => false
  end.

Definition counters (c : VectorClock) : Prop :=
  map_Forall (λ _ x, is_counter x = true) c.

Global Instance counters_dec c : Decision (counters c).
Proof. unfold counters. apply _. Defined.

(** No key of the clock is the name of a member of [Object.prototype]. *)
Definition plain_keys (c : VectorClock) : Prop :=
  map_Forall (λ k _, member k = None) c.

Global Instance plain_keys_dec c : Decision (plain_keys c).
Proof. unfold plain_keys. apply _. Defined.

(** The entry of a clock at a key, an absent key counting as [0]. *)
Definition entry (c : VectorClock) (k : string) : Z :=
  match c !! k with
  | Some (Num n) => n
  | _ => 0
  end.

(** *** [happensBefore]

    The body of the [for (const nodeId in b)] loop, over the entries of [b]
    still to visit; [hasStrictlyLess] is the loop's flag. The loop runs
    over the entries of [b] in the order of [map_to_list]; the result is
    the same in any order ([happensBefore_loop_Permutation]). *)
Fixpoint happensBefore_loop (a : VectorClock) (bs : list (string * number))
    (hasStrictlyLess : bool) : bool :=
  match bs with
  | [] => hasStrictlyLess
  | (nodeId, bVersion) :: rest =>
      let aVersion := or_zero (get_property a nodeId) in
      if num_gt aVersion bVersion then false
      else happensBefore_loop a rest
             (if num_lt aVersion bVersion then true else hasStrictlyLess)
  end.

Definition happensBefore (a b : VectorClock) : bool :=
  happensBefore_loop a (map_to_list b) false.

(** *** [mergeClocks]

    [result] starts as a copy of [a]; the loop then writes every entry of
    [b] into it. *)
Fixpoint mergeClocks_loop (bs : list (string * number))
    (result : VectorClock) : VectorClock :=
  match bs with
  | [] => result
  | (nodeId, bVersion) :: rest =>
      mergeClocks_loop rest
        (assign nodeId
           (num_max (or_zero (get_property result nodeId)) bVersion)
           result)
  end.

Definition mergeClocks (a b : VectorClock) : VectorClock :=
  mergeClocks_loop (map_to_list b) a.

(** ** Payloads

    The [any] payload of a value leaf: scalars, sequences and keyed
    records. *)
Inductive JsValue :=
  | JUndefined
  | JNull
  | JBool (b : bool)
  | JNumber (n : Z)
  | JString (s : string)
  | JArray (elems : list JsValue)
  | JObject (fields : gmap string JsValue).

(** ** Trie nodes

    [TrieNode = { nodeType; isLeaf }] with [nodeType] either
    [{ type: 'value'; value; version }] or [{ type: 'branch'; children }]:
    the tag of [nodeType] selects the constructor, [isLeaf] is carried
    next to it. *)
Inductive Trie :=
  | ValueNode (value : JsValue) (version : VectorClock) (isLeaf : bool)
  | BranchNode (children : gmap string Trie) (isLeaf : bool).

Definition isLeaf (t : Trie) : bool :=
  match t with
  | ValueNode _ _ l | BranchNode _ l => l
  end.

Definition empty : Trie := BranchNode ∅ false.

Fixpoint get (path : list string) (trie : Trie) : option Trie :=
  match path with
  | [] => Some trie
  | key :: rest =>
      match trie with
      | ValueNode _ _ _ => None
      | BranchNode children _ =>
          match children !! key with
          | None => None
          | Some next => get rest next
          end
      end
  end.

(** [toValue] on a node that is present. [result] is a plain object that
    starts empty: [result[key] = value] creates an own property, except
    for the key [__proto__], where the assignment goes to the setter
    inherited from [Object.prototype] and no own property is made. (The
    prototype that this gives the record when the value is an object is
    not part of [JObject].) *)
Fixpoint toValue_node (trie : Trie) : JsValue :=
  match trie with
  | ValueNode value _ _ => value
  | BranchNode children _ =>
      let result :=
        delete "__proto__"
          (omap (λ child,
                   match toValue_node child with
                   | JUndefined => None
                   | value => Some value
                   end) children) in
      if decide (result = ∅) then JUndefined else JObject result
  end.

(** [toValue(trie: Trie | undefined)]. *)
Definition toValue (trie : option Trie) : JsValue :=
  match trie with
  | None => JUndefined
  | Some t => toValue_node t
  end.

(** ** Results of code that can throw *)

Inductive result (A : Type) :=
  | Ok (a : A)
  | Throw (message : string).
Global Arguments Ok {A} a.
Global Arguments Throw {A} message.

Definition bind {A B} (r : result A) (k : A → result B) : result B :=
  match r with
  | Ok a => k a
  | Throw m => Throw m
  end.

Notation "'let*' x ':=' r 'in' k" := (bind r (λ x, k))
  (at level 10, x name, r at level 100, k at level 200).

(** ** [setInTrie] *)

Fixpoint setInTrie (path : list string) (value : JsValue)
    (version : VectorClock) (trie : Trie) : result Trie :=
  match path with
  | [] => Ok (ValueNode value version true)
  | key :: rest =>
      match trie with
      | ValueNode _ _ _ => Throw "Cannot set path on value node"
      | BranchNode children0 _ =>
          let child := default empty (children0 !! key) in
          let* child' := setInTrie rest value version child in
          Ok (BranchNode (<[key := child']> children0) false)
      end
  end.

(** ** Containers *)

Record Container := mkContainer {
  root : Trie;
  id : string;
  version : VectorClock;
}.

Definition createContainer (id : string) : Container :=
  {| root := empty; id := id; version := {[ id := Num 0 ]} |}.

Definition set (path : list string) (value : JsValue)
    (container : Container) : result Container :=
  let newVersion :=
    <[id container :=
        plus_one (get_property (version container) (id container))]>
      (version container) in
  let* root' := setInTrie path value newVersion (root container) in
  Ok {| root := root'; id := id container; version := newVersion |}.

(** ** [mergeTries] and [merge] *)

(** One round of the [for (const [key, bChild] of b.nodeType.children)]
    loop of [mergeTries]; [rec aChild] is the recursive call on [bChild]. *)
Definition mergeTries_step (rec : Trie → Trie) (bChild : Trie) (key : string)
    (children : gmap string Trie) : gmap string Trie :=
  <[key := match children !! key with
           | Some aChild => rec aChild
           | None => bChild
           end]> children.

Fixpoint mergeTries (a b : Trie) {struct b} : Trie :=
  match a, b with
  | ValueNode _ aVersion _, ValueNode _ bVersion _ =>
      if happensBefore aVersion bVersion then b else a
  | BranchNode aChildren _, BranchNode bChildren _ =>
      BranchNode
        (map_fold
           (λ key bChild children,
              mergeTries_step (λ aChild, mergeTries aChild bChild)
                bChild key children)
           aChildren bChildren)
        false
  | _, _ => b
  end.

(** The children of the merge of two branches. *)
Definition mergeChildren (aChildren bChildren : gmap string Trie)
    : gmap string Trie :=
  map_fold
    (λ key bChild children,
       mergeTries_step (λ aChild, mergeTries aChild bChild)
         bChild key children)
    aChildren bChildren.

(** The same loop over the entries of [b] in a given order of visit. *)
Definition mergeChildren_loop (bs : list (string * Trie))
    (children : gmap string Trie) : gmap string Trie :=
  foldl
    (λ children kb,
       mergeTries_step (λ aChild, mergeTries aChild kb.2) kb.2 kb.1 children)
    children bs.

(** [mergeTries] with the [if (!a) return b; if (!b) return a;] guards on
    arguments that may be [undefined]. *)
Definition mergeTries_opt (a b : option Trie) : option Trie :=
  match a, b with
  | None, _ => b
  | _, None => a
  | Some a, Some b => Some (mergeTries a b)
  end.

Definition merge (a b : Container) : Container :=
  if decide (id a = id b) then
    if happensBefore (version a) (version b) then b else a
  else
    let newVersion := mergeClocks (version a) (version b) in
    {| id := id a; root := mergeTries (root a) (root b);
       version := newVersion |}.

(** The number of nodes of a tree, to reason by induction on trees. *)
Fixpoint Trie_size (t : Trie) : nat :=
  match t with
  | ValueNode _ _ _ => 1
  | BranchNode children0 _ =>
      S (map_fold (λ _ child n, Trie_size child + n)%nat 0%nat children0)
  end.

(** ** Descending through a leaf

    [path] splits into a prefix that leads to a value leaf of [trie] and a
    non-empty remainder still to walk. *)
Definition through_leaf (path : list string) (trie : Trie) : Prop :=
  ∃ p1 p2 value version isLeaf,
    path = p1 ++ p2 ∧ p2 ≠ [] ∧
    get p1 trie = Some (ValueNode value version isLeaf).

(** A container holds a counter for its own identifier, as every container
    obtained from [createContainer] does. *)
Definition own_entry (c : Container) : Prop :=
  ∃ n, version c !! id c = Some (Num n).

(** ** The [Map] objects as a store

    [setInTrie] writes into a [Map] ([children.set]) after copying it
    ([new Map(...)]). To state that the maps of the input tree are not
    written to, the maps live in a store, addressed by location, and a
    branch refers to its [children] map by location. The node objects and
    the clocks are never assigned to once built; they stay values. *)

Abbreviation loc := nat.

Inductive HNode :=
  | HValue (value : JsValue) (version : VectorClock) (isLeaf : bool)
  | HBranch (children : loc) (isLeaf : bool).

Abbreviation store := (gmap loc (gmap string HNode)).

(** The entries of the map at a location. The nodes the code builds only
    refer to locations that hold a map; any other location reads as an
    empty map. *)
Definition Map_entries (σ : store) (l : loc) : gmap string HNode :=
  default ∅ (σ !! l).

(** [new Map(entries)]. *)
Definition new_Map (entries : gmap string HNode) (σ : store) : loc * store :=
  let l := fresh (dom σ) in (l, <[l := entries]> σ).

(** [map.get(key)] and [map.set(key, node)]. *)
Definition Map_get (σ : store) (l : loc) (key : string) : option HNode :=
  Map_entries σ l !! key.

Definition Map_set (σ : store) (l : loc) (key : string) (node : HNode)
    : store :=
  <[l := <[key := node]> (Map_entries σ l)]> σ.

Definition h_empty (σ : store) : HNode * store :=
  let '(l, σ') := new_Map ∅ σ in (HBranch l false, σ').

Fixpoint h_setInTrie (path : list string) (value : JsValue)
    (version : VectorClock) (trie : HNode) (σ : store)
    : result HNode * store :=
  match path with
  | [] => (Ok (HValue value version true), σ)
  | key :: rest =>
      match trie with
      | HValue _ _ _ => (Throw "Cannot set path on value node", σ)
      | HBranch l0 _ =>
          let '(children, σ1) := new_Map (Map_entries σ l0) σ in
          let '(child, σ2) :=
            match Map_get σ1 children key with
            | Some child => (child, σ1)
            | None => h_empty σ1
            end in
          let '(r, σ3) := h_setInTrie rest value version child σ2 in
          match r with
          | Throw m => (Throw m, σ3)
          | Ok child' =>
              (Ok (HBranch children false), Map_set σ3 children key child')
          end
      end
  end.

Record HContainer := mkHContainer {
  h_root : HNode;
  h_id : string;
  h_version : VectorClock;
}.

Definition h_set (path : list string) (value : JsValue)
    (container : HContainer) (σ : store) : result HContainer * store :=
  let newVersion :=
    <[h_id container :=
        plus_one (get_property (h_version container) (h_id container))]>
      (h_version container) in
  let '(r, σ') :=
    h_setInTrie path value newVersion (h_root container) σ in
  match r with
  | Throw m => (Throw m, σ')
  | Ok root' =>
      (Ok {| h_root := root'; h_id := h_id container;
             h_version := newVersion |}, σ')
  end.

(** A node [h] of the store [σ] is the tree [t]. *)
Fixpoint represents (σ : store) (t : Trie) (h : HNode) {struct t} : Prop :=
  match t with
  | ValueNode value version l => h = HValue value version l
  | BranchNode children0 l =>
      ∃ l0 m,
        h = HBranch l0 l ∧ σ !! l0 = Some m ∧ dom m = dom children0 ∧
        map_fold
          (λ key child others,
             (∃ h', m !! key = Some h' ∧ represents σ child h') ∧ others)
          True children0
  end.

Definition represents_container (σ : store) (c : Container)
    (hc : HContainer) : Prop :=
  represents σ (root c) (h_root hc) ∧
  id c = h_id hc ∧ version c = h_version hc.

(** ** The order of the data model on clocks

    [a] is before [b]: every entry of [a] is at most the entry of [b], an
    absent key counting as [0], and one is strictly less. *)
Definition before (a b : VectorClock) : Prop :=
  (∀ k, entry a k ≤ entry b k) ∧ (∃ k, entry a k < entry b k).

(** ** Two replicas that wrote the same path *)

Definition replica_a : Container :=
  {| root := BranchNode
       {[ "x" := ValueNode (JNumber 1) {[ "a" := Num 1 ]} true ]} false;
     id := "a";
     version := {[ "a" := Num 1 ]} |}.

Definition replica_b : Container :=
  {| root := BranchNode
       {[ "x" := ValueNode (JNumber 2) {[ "b" := Num 1 ]} true ]} false;
     id := "b";
     version := {[ "b" := Num 1 ]} |}.

(** ** Two leaves written concurrently, and a leaf against a branch *)

Definition nodeVersion (t : Trie) : option VectorClock :=
  match t with
  | ValueNode _ version _ => Some version
  | BranchNode _ _ => None
  end.

Definition leaf_p : Trie :=
  ValueNode (JNumber 1) {[ "x" := Num 2; "y" := Num 1 ]} true.

Definition leaf_q : Trie :=
  ValueNode (JNumber 2) {[ "x" := Num 1; "y" := Num 2 ]} true.

Definition branch_x : Trie :=
  BranchNode {[ "x" := ValueNode (JNumber 1) {[ "a" := Num 1 ]} true ]} false.

Definition leaf_b : Trie :=
  ValueNode (JNumber 2) {[ "b" := Num 1 ]} true.

(** ** The container [createContainer('a')] in a store

    The only map is the one of the empty root. *)
Definition store_a : store := {[ 0%nat := ∅ ]}.

Definition h_container_a : HContainer :=
  {| h_root := HBranch 0%nat false; h_id := "a";
     h_version := {[ "a" := Num 0 ]} |}.

(** The container [replica_a] in a store: the map of its root holds the
    leaf at [x]. *)
Definition store_replica_a : store :=
  {[ 0%nat := {[ "x" := HValue (JNumber 1) {[ "a" := Num 1 ]} true ]} ]}.

Definition h_replica_a : HContainer :=
  {| h_root := HBranch 0%nat false; h_id := "a";
     h_version := {[ "a" := Num 1 ]} |}.

(** ** A container without a counter for its own identifier *)

Definition orphan : Container :=
  {| root := empty; id := "r1"; version := {[ "r2" := Num 1 ]} |}.

(** ** Presence and removal

    [has], [setValue], [removeValue] and [removePath] are exercised by the
    tests of the trie but are not part of [trie.ts] as it stands. *)

(** Modelled from the spec: [has(path, node)], missing from [trie.ts], is
    true iff [get] resolves to any leaf or branch. *)
Definition has (path : list string) (node : Trie) : bool :=
  match get path node with
  | Some _ => true
  | None => false
  end.

(** Modelled from the spec: [setValue(path, payload, node)], missing from
    [trie.ts] (the tests call it [set] on a tree), returns a tree identical
    to [node] except that the leaf at [path] now holds [payload]. The plain
    leaf, which has no causal metadata, is a value node with the empty
    clock, written by [setInTrie]. *)
Definition setValue (path : list string) (payload : JsValue) (node : Trie)
    : result Trie :=
  setInTrie path payload ∅ node.

(** Modelled from the spec: [removeValue(path, node)], missing from
    [trie.ts], clears the leaf at [path] to "no value" ([undefined]) and
    retains the branch structure at and below that path. *)
Fixpoint removeValue (path : list string) (node : Trie) : Trie :=
  match path, node with
  | [], ValueNode _ version l => ValueNode JUndefined version l
  | [], BranchNode _ _ => node
  | _ :: _, ValueNode _ _ _ => node
  | key :: rest, BranchNode children0 _ =>
      match children0 !! key with
      | Some child =>
          BranchNode (<[key := removeValue rest child]> children0) false
      | None => node
      end
  end.

(** Modelled from the spec: the recursion of [removePath(path, node)],
    missing from [trie.ts], which removes the leaf at [path] and prunes
    every ancestor branch that becomes empty as a result, up to the root.
    [prune] returns [None] when the node itself is to be dropped by its
    parent. *)
Fixpoint prune (path : list string) (node : Trie) : option Trie :=
  match path, node with
  | [], ValueNode _ _ _ => None
  | [], BranchNode _ _ => Some node
  | _ :: _, ValueNode _ _ _ => Some node
  | key :: rest, BranchNode children0 _ =>
      match children0 !! key with
      | Some child =>
          match prune rest child with
          | Some child' => Some (BranchNode (<[key := child']> children0) false)
          | None =>
              let children' := delete key children0 in
              if decide (children' = ∅) then None
              else Some (BranchNode children' false)
          end
      | None => Some node
      end
  end.

(** Modelled from the spec: [removePath(path, node)], missing from
    [trie.ts]; if the entire tree becomes empty, it returns the canonical
    empty tree. *)
Definition removePath (path : list string) (node : Trie) : Trie :=
  default empty (prune path node).

(** [set(['a','b'], 1, set(['a','c'], 2, empty()))]. *)
Definition tree_abc : Trie :=
  BranchNode
    {[ "a" := BranchNode {[ "b" := ValueNode (JNumber 1) ∅ true;
                            "c" := ValueNode (JNumber 2) ∅ true ]} false ]}
    false.

(** ** Invariants of the containers and trees the code builds *)

(** The clock of a container holds counters, one of them for the
    container's own identifier. *)
Definition sound_version (c : Container) : Prop :=
  counters (version c) ∧ own_entry c.

(** [isLeaf] follows the tag of the node: [true] on a value leaf, [false]
    on a branch, as in every node literal of [trie.ts]. *)
Definition marked (n : Trie) : Prop :=
  isLeaf n = match n with
             | ValueNode _ _ _ => true
             | BranchNode _ _ => false
             end.

Definition well_marked (t : Trie) : Prop :=
  ∀ p n, get p t = Some n → marked n.

(** ** Paths and payloads, to state what [get], [set] and [toValue] do *)

(** Two paths part ways: after a common prefix they go on with different
    segments. *)
Definition diverge (p q : list string) : Prop :=
  ∃ r k k' p' q', p = r ++ k :: p' ∧ q = r ++ k' :: q' ∧ k ≠ k'.

(** The walk along [p] in [t] stops in a branch that has no child for the
    next segment. *)
Definition absent_at (p : list string) (t : Trie) : Prop :=
  ∃ p1 k p2 ch l,
    p = p1 ++ k :: p2 ∧ get p1 t = Some (BranchNode ch l) ∧ ch !! k = None.

(** The test [value !== undefined] of [toValue], as the entry to store. *)
Definition defined (value : JsValue) : option JsValue :=
  match value with
  | JUndefined => None
  | value => Some value
  end.

(** The record [{k1: {k2: ... value}}] along a path. *)
Fixpoint nest (path : list string) (value : JsValue) : JsValue :=
  match path with
  | [] => value
  | key :: rest => JObject {[ key := nest rest value ]}
  end.

(** ** [PersistentArray] of [array.ts]

    [array.ts] imports a generic class [Trie<string, T>] with a
    constructor, [set(path, value)] and [get(path)]; [trie.ts] as it stands
    exports no such class, so the class is a parameter: its three
    operations, and the laws of a store of values under one-segment paths
    that the array relies on. The elements [T] are the defined values;
    [T | undefined] is [option T]. Indices and sizes are the integers among
    the JavaScript numbers, and [index.toString()] is their decimal
    notation, [pretty]. *)

Class TrieClass (Tr : Type → Type) := {
  Trie_new {T} : Tr T;
  Trie_set {T} : list string → T → Tr T → Tr T;
  Trie_get {T} : list string → Tr T → option T;
}.

Class TrieLaws (Tr : Type → Type) `{!TrieClass Tr} : Prop := {
  Trie_get_new {T} k : Trie_get [k] (Trie_new : Tr T) = None;
  Trie_get_set {T} k (v : T) (t : Tr T) :
    Trie_get [k] (Trie_set [k] v t) = Some v;
  Trie_get_set_ne {T} k k' (v : T) (t : Tr T) :
    k ≠ k' → Trie_get [k'] (Trie_set [k] v t) = Trie_get [k'] t;
}.

Module PersistentArray.
Section methods.
Context {Tr : Type → Type} `{!TrieClass Tr}.

Record t (T : Type) := mk { trie : Tr T; _size : Z }.
Global Arguments mk {T} trie _size.
Global Arguments trie {T} _.
Global Arguments _size {T} _.

Definition empty {T} : t T := mk Trie_new 0.

(** The loop of [from]: [trie = trie.set([size.toString()], item);
    size++] for every item. *)
Definition from_loop {T} (items : list T) (a : t T) : t T :=
  foldl (λ a item,
           mk (Trie_set [pretty (_size a)] item (trie a)) (_size a + 1))
        a items.

Definition from {T} (items : list T) : t T := from_loop items empty.

Definition size {T} (a : t T) : Z := _size a.

Definition get {T} (index : Z) (a : t T) : option T :=
  if decide (index < 0 ∨ _size a ≤ index) then None
  else Trie_get [pretty index] (trie a).

Definition set {T} (index : Z) (value : T) (a : t T) : result (t T) :=
  if decide (index < 0) then Throw "Index out of bounds"
  else Ok (mk (Trie_set [pretty index] value (trie a))
              (_size a `max` (index + 1))).

Definition append {T} (value : T) (a : t T) : result (t T) :=
  set (_size a) value a.

(** [for (let i = 0; i < this._size; i++)] visits [seqZ 0 _size]. *)
Definition map {T U} (fn : T → Z → U) (a : t T) : result (t U) :=
  foldl (λ acc i,
           let* result := acc in
           match get i a with
           | Some value => set i (fn value i) result
           | None => Ok result
           end)
        (Ok empty) (seqZ 0 (_size a)).

(** The state of the loop of [filter] is [result] and [newIndex]. *)
Definition filter {T} (predicate : T → Z → bool) (a : t T)
    : result (t T) :=
  let* final :=
    foldl (λ acc i,
             let* st := acc in
             match get i a with
             | Some value =>
                 if predicate value i then
                   let* result := set st.2 value st.1 in
                   Ok (result, st.2 + 1)
                 else Ok st
             | None => Ok st
             end)
          (Ok (empty, 0)) (seqZ 0 (_size a)) in
  Ok final.1.

Definition reduce {T U} (fn : U → T → Z → U) (initial : U) (a : t T) : U :=
  foldl (λ result i,
           match get i a with
           | Some value => fn result value i
           | None => result
           end)
        initial (seqZ 0 (_size a)).

(** [slice(start = 0, end = this._size)]: an argument left out is
    [None]. *)
Definition slice {T} (start end_ : option Z) (a : t T) : result (t T) :=
  let start := 0 `max` default 0 start in
  let end_ := _size a `min` default (_size a) end_ in
  foldl (λ acc i,
           let* result := acc in
           match get i a with
           | Some value => set (i - start) value result
           | None => Ok result
           end)
        (Ok empty) (seqZ start (end_ - start)).

(** [new Array(size)] filled with [this.get(i)]; a hole or [undefined]
    is [None]. *)
Definition toArray {T} (a : t T) : list (option T) :=
  (λ i, get i a) <$> seqZ 0 (_size a).

(** One call of [next()] of the iterator, on its counter [index]: the
    value yielded, or [None] when done, and the counter after the
    call. *)
Definition next {T} (a : t T) (index : Z) : option (option T) * Z :=
  if decide (_size a ≤ index) then (None, index)
  else (Some (get index a), index + 1).
End methods.
End PersistentArray.

(** An array that holds nothing at or beyond its size, as those built from
    [empty] and [from] by the methods. *)
Definition clean {Tr} `{!TrieClass Tr} {T} (a : PersistentArray.t T)
    : Prop :=
  0 ≤ PersistentArray._size a ∧
  ∀ i, PersistentArray._size a ≤ i →
       Trie_get [pretty i] (PersistentArray.trie a) = None.

(** The items a [filter] keeps, in order: those that satisfy the predicate
    at their index. *)
Definition kept {T} (predicate : T → Z → bool) (items : list T) : list T :=
  concat (imap (λ i x, if predicate x (Z.of_nat i) then [x] else []) items).

(** The items with their indices. *)
Definition indexed {T} (items : list T) : list (Z * T) :=
  imap (λ i x, (Z.of_nat i, x)) items.

(** A class that meets the laws: a finite map from paths. *)
Global Instance gmap_trie : TrieClass (gmap (list string)) := {|
  Trie_new T := ∅;
  Trie_set T path value t := <[path := value]> t;
  Trie_get T path t := t !! path;
|}.

(** The array [PersistentArray.from([10, 20, 30])] over that class. *)
Definition array_123 : @PersistentArray.t (gmap (list string)) Z :=
  PersistentArray.from [10; 20; 30].

(** * Properties *)

(** ** Numbers *)

Lemma is_counter_Num x : is_counter x = true ↔ ∃ n, x = Num n ∧ 0 ≤ n.
Proof.
  destruct x as [n| |s]; simpl.
  - rewrite bool_decide_eq_true. naive_solver.
  - naive_solver.
  - naive_solver.
Qed.

Lemma string_compare_refl s : String.compare s s = Eq.
Proof.
  induction s as [|c s IH]; simpl; [done|].
  unfold Ascii.compare. by rewrite N.compare_refl.
Qed.

Lemma string_ltb_irrefl s : String.ltb s s = false.
Proof. unfold String.ltb. by rewrite string_compare_refl. Qed.

Lemma double_succ_exact n : - 2 ^ 53 ≤ n < 2 ^ 53 → double_succ n = n + 1.
Proof. intros Hn. unfold double_succ. by rewrite decide_True. Qed.

(** ** Reads and writes of a clock *)

Lemma get_property_own (c : VectorClock) k x :
  c !! k = Some x → get_property c k = Some x.
Proof. unfold get_property. by intros ->. Qed.

Lemma get_property_plain (c : VectorClock) k :
  member k = None → get_property c k = c !! k.
Proof. unfold get_property. intros ->. by destruct (c !! k). Qed.

Lemma plain_keys_lookup (c : VectorClock) k :
  plain_keys c → is_Some (c !! k) → member k = None.
Proof. intros Hc [x Hx]. exact (Hc k x Hx). Qed.

Lemma plain_not_proto k : member k = None → k ≠ "__proto__".
Proof. by intros Hk ->. Qed.

Lemma plain_keys_insert (c : VectorClock) k x :
  member k = None → plain_keys c → plain_keys (<[k := x]> c).
Proof. intros Hk Hc. by apply map_Forall_insert_2. Qed.

Lemma lookup_assign i x (result : VectorClock) k :
  assign i x result !! k =
    if decide (i = k)
    then if decide (k = "__proto__" ∧ result !! k = None) then None
         else Some x
    else result !! k.
Proof.
  unfold assign. destruct (decide (i = k)) as [->|Hne].
  - case_decide as Hp; [by destruct Hp as [_ ->]|].
    by rewrite lookup_insert_eq.
  - case_decide; [done|]. by rewrite lookup_insert_ne.
Qed.

Lemma get_property_assign_ne i x (result : VectorClock) k :
  i ≠ k → get_property (assign i x result) k = get_property result k.
Proof.
  intros Hne. unfold get_property.
  by rewrite lookup_assign, decide_False by done.
Qed.

Lemma counters_lookup (c : VectorClock) k x :
  counters c → c !! k = Some x → ∃ n, x = Num n ∧ 0 ≤ n.
Proof. intros Hc Hk. apply is_counter_Num, (Hc k x Hk). Qed.

Lemma counters_or_zero (c : VectorClock) k :
  counters c → or_zero (c !! k) = Num (entry c k) ∧ 0 ≤ entry c k.
Proof.
  intros Hc. unfold entry. destruct (c !! k) as [x|] eqn:Hk; simpl; [|done].
  destruct (counters_lookup c k x Hc Hk) as (n & -> & ?). done.
Qed.

Lemma counters_entry (c : VectorClock) k x :
  counters c → c !! k = Some x → x = Num (entry c k) ∧ 0 ≤ entry c k.
Proof.
  intros Hc Hk. destruct (counters_lookup c k x Hc Hk) as (n & -> & ?).
  unfold entry. by rewrite Hk.
Qed.

Lemma entry_absent (c : VectorClock) k : c !! k = None → entry c k = 0.
Proof. unfold entry. by intros ->. Qed.

(** ** [happensBefore] *)

(** What the loop computes: no visited entry of [a] exceeds that of [b], and
    the flag is set on entry or by a visited entry that is strictly less. *)
Lemma happensBefore_loop_true a bs flag :
  happensBefore_loop a bs flag = true ↔
    Forall (λ kv, num_gt (or_zero (get_property a kv.1)) kv.2 = false) bs ∧
    (flag = true ∨
     Exists (λ kv, num_lt (or_zero (get_property a kv.1)) kv.2 = true) bs).
Proof.
  revert flag. induction bs as [|[k y] bs IH]; intros flag; simpl.
  - rewrite Exists_nil. split; [intros ->; auto | by intros [_ [?|[]]]].
  - rewrite Forall_cons, Exists_cons. simpl.
    destruct (num_gt (or_zero (get_property a k)) y) eqn:Hgt.
    + split; [done | by intros [[? _] _]].
    + rewrite IH.
      destruct (num_lt (or_zero (get_property a k)) y) eqn:Hlt; naive_solver.
Qed.

(** The order in which [for ... in] visits the keys does not matter. *)
Lemma happensBefore_loop_Permutation a bs bs' flag :
  bs ≡ₚ bs' → happensBefore_loop a bs flag = happensBefore_loop a bs' flag.
Proof.
  intros Hp. apply eq_true_iff_eq. rewrite !happensBefore_loop_true.
  by rewrite Hp.
Qed.

Lemma happensBefore_true a b :
  happensBefore a b = true ↔
    (∀ k y, b !! k = Some y →
       num_gt (or_zero (get_property a k)) y = false) ∧
    (∃ k y, b !! k = Some y ∧ num_lt (or_zero (get_property a k)) y = true).
Proof.
  unfold happensBefore. rewrite happensBefore_loop_true.
  rewrite Forall_forall, Exists_exists. split.
  - intros [Hall [?|([k y] & Hin & Hlt)]]; [done|]. split.
    + intros k' y' Hk'. by apply (Hall (k', y')), elem_of_map_to_list.
    + exists k, y. by apply elem_of_map_to_list in Hin.
  - intros [Hall (k & y & Hk & Hlt)]. split.
    + intros [k' y'] Hin. by apply (Hall k' y'), elem_of_map_to_list.
    + right. exists (k, y). by rewrite elem_of_map_to_list.
Qed.

(** On clocks of counters, where every read [a[nodeId]] of the loop is
    that of an own entry or of nothing, the code compares the entries over
    the keys of [b] only. *)
Lemma happensBefore_counters_reads a b :
  counters a → counters b →
  (∀ k, is_Some (b !! k) → get_property a k = a !! k) →
  happensBefore a b = true ↔
    (∀ k, is_Some (b !! k) → entry a k ≤ entry b k) ∧
    (∃ k, is_Some (b !! k) ∧ entry a k < entry b k).
Proof.
  intros Ha Hb Hread. rewrite happensBefore_true. split.
  - intros [Hall (k & y & Hk & Hlt)]. split.
    + intros k' [y' Hk']. specialize (Hall k' y' Hk').
      rewrite Hread in Hall by by eexists.
      destruct (counters_or_zero a k' Ha) as [Hz _].
      destruct (counters_entry b k' y' Hb Hk') as [-> _].
      rewrite Hz in Hall. simpl in Hall.
      apply bool_decide_eq_false in Hall. lia.
    + exists k. split; [by eexists|].
      rewrite Hread in Hlt by by eexists.
      destruct (counters_or_zero a k Ha) as [Hz _].
      destruct (counters_entry b k y Hb Hk) as [-> _].
      rewrite Hz in Hlt. simpl in Hlt. by apply bool_decide_eq_true in Hlt.
  - intros [Hall (k & [y Hk] & Hlt)]. split.
    + intros k' y' Hk'. specialize (Hall k' (ex_intro _ y' Hk')).
      rewrite Hread by by eexists.
      destruct (counters_or_zero a k' Ha) as [-> _].
      destruct (counters_entry b k' y' Hb Hk') as [-> _].
      simpl. apply bool_decide_eq_false. lia.
    + exists k, y. split; [done|].
      rewrite Hread by by eexists.
      destruct (counters_or_zero a k Ha) as [-> _].
      destruct (counters_entry b k y Hb Hk) as [-> _].
      simpl. by apply bool_decide_eq_true.
Qed.

(** The reads are such when no key of [b] names a member of
    [Object.prototype], and when every key of [b] is a key of [a]. *)
Lemma happensBefore_counters a b :
  counters a → counters b → plain_keys b →
  happensBefore a b = true ↔
    (∀ k, is_Some (b !! k) → entry a k ≤ entry b k) ∧
    (∃ k, is_Some (b !! k) ∧ entry a k < entry b k).
Proof.
  intros Ha Hb Hpb. apply happensBefore_counters_reads; [done..|].
  intros k Hk. apply get_property_plain. by eapply plain_keys_lookup.
Qed.

Lemma happensBefore_counters_dom a b :
  counters a → counters b → dom b ⊆ dom a →
  happensBefore a b = true ↔
    (∀ k, is_Some (b !! k) → entry a k ≤ entry b k) ∧
    (∃ k, is_Some (b !! k) ∧ entry a k < entry b k).
Proof.
  intros Ha Hb Hsub. apply happensBefore_counters_reads; [done..|].
  intros k Hk%elem_of_dom%Hsub%elem_of_dom. destruct Hk as [x Hx].
  by rewrite (get_property_own a k x Hx).
Qed.

(** ** [mergeClocks] *)

(** Entry by entry, whatever the order in which the keys of [b] are
    visited: a key of [b] gets the maximum of the two entries, the one of
    [a] read through [|| 0], unless the key is [__proto__] and [a] has no
    own entry for it: that write is lost; the other keys keep the entry of
    [a]. *)
Lemma mergeClocks_loop_lookup bs (result : VectorClock) k :
  NoDup bs.*1 →
  mergeClocks_loop bs result !! k =
    match (list_to_map bs : VectorClock) !! k with
    | Some y =>
        if decide (k = "__proto__" ∧ result !! k = None) then None
        else Some (num_max (or_zero (get_property result k)) y)
    | None => result !! k
    end.
Proof.
  revert result. induction bs as [|[i y] bs IH]; intros result Hnd; simpl.
  - by rewrite lookup_empty.
  - apply NoDup_cons in Hnd as [Hi Hnd]. rewrite IH by done.
    destruct (decide (i = k)) as [->|Hne].
    + rewrite lookup_insert_eq, (not_elem_of_list_to_map_1 bs k Hi).
      by rewrite lookup_assign, decide_True by done.
    + rewrite lookup_insert_ne by done.
      rewrite lookup_assign, decide_False by done.
      by rewrite get_property_assign_ne by done.
Qed.

Lemma mergeClocks_loop_Permutation bs bs' (result : VectorClock) :
  NoDup bs.*1 → bs ≡ₚ bs' →
  mergeClocks_loop bs result = mergeClocks_loop bs' result.
Proof.
  intros Hnd Hp. apply map_eq. intros k.
  rewrite !mergeClocks_loop_lookup; [|by rewrite <- Hp|done].
  by rewrite (list_to_map_proper bs bs' Hnd Hp).
Qed.

Lemma mergeClocks_lookup a b k :
  mergeClocks a b !! k =
    match b !! k with
    | Some y =>
        if decide (k = "__proto__" ∧ a !! k = None) then None
        else Some (num_max (or_zero (get_property a k)) y)
    | None => a !! k
    end.
Proof.
  unfold mergeClocks.
  rewrite mergeClocks_loop_lookup by apply NoDup_fst_map_to_list.
  by rewrite list_to_map_to_list.
Qed.

(** Where no key of [b] names a member of [Object.prototype], every read
    is that of an own entry and every write is kept. *)
Lemma mergeClocks_plain_lookup a b k :
  plain_keys b →
  mergeClocks a b !! k =
    match b !! k with
    | Some y => Some (num_max (or_zero (a !! k)) y)
    | None => a !! k
    end.
Proof.
  intros Hpb. rewrite mergeClocks_lookup.
  destruct (b !! k) as [y|] eqn:Hbk; [|done].
  pose proof (Hpb k y Hbk) as Hk. simpl in Hk.
  rewrite decide_False by (intros [Hp _]; by apply (plain_not_proto k)).
  by rewrite get_property_plain.
Qed.

Lemma mergeClocks_dom a b :
  plain_keys b → dom (mergeClocks a b) = dom a ∪ dom b.
Proof.
  intros Hpb. apply set_eq. intros k.
  rewrite elem_of_union, !elem_of_dom, mergeClocks_plain_lookup by done.
  destruct (b !! k); unfold is_Some; naive_solver.
Qed.

Lemma mergeClocks_plain_keys a b :
  plain_keys a → plain_keys b → plain_keys (mergeClocks a b).
Proof.
  intros Hpa Hpb k x. rewrite mergeClocks_plain_lookup by done.
  destruct (b !! k) as [y|] eqn:Hbk.
  - intros _. exact (Hpb k y Hbk).
  - intros Hak. exact (Hpa k x Hak).
Qed.

Lemma mergeClocks_counters_lookup a b k :
  counters a → counters b → plain_keys b →
  mergeClocks a b !! k =
    if decide (k ∈ dom a ∪ dom b)
    then Some (Num (entry a k `max` entry b k)) else None.
Proof.
  intros Ha Hb Hpb. rewrite mergeClocks_plain_lookup by done.
  destruct (counters_or_zero a k Ha) as [Hz Hnn].
  destruct (b !! k) as [y|] eqn:Hbk.
  - destruct (counters_entry b k y Hb Hbk) as [-> _].
    rewrite Hz. simpl. rewrite decide_True; [done|].
    apply elem_of_union_r, elem_of_dom. by eexists.
  - rewrite (entry_absent b k Hbk), Z.max_l by done.
    destruct (a !! k) as [x|] eqn:Hak.
    + destruct (counters_entry a k x Ha Hak) as [-> _].
      rewrite decide_True; [done|].
      apply elem_of_union_l, elem_of_dom. by eexists.
    + rewrite decide_False; [done|].
      rewrite elem_of_union, !elem_of_dom, Hak, Hbk.
      intros [[]|[]]; done.
Qed.

Lemma mergeClocks_counters a b :
  counters a → counters b → plain_keys b → counters (mergeClocks a b).
Proof.
  intros Ha Hb Hpb k x. rewrite mergeClocks_counters_lookup by done.
  case_decide; [|done]. intros [= <-]. simpl.
  apply bool_decide_eq_true.
  destruct (counters_or_zero a k Ha) as [_ ?]. lia.
Qed.

Lemma mergeClocks_entry a b k :
  counters a → counters b → plain_keys b →
  entry (mergeClocks a b) k = entry a k `max` entry b k.
Proof.
  intros Ha Hb Hpb. unfold entry at 1.
  rewrite mergeClocks_counters_lookup by done.
  case_decide as Hk; [done|].
  rewrite not_elem_of_union, !not_elem_of_dom in Hk. destruct Hk as [Hka Hkb].
  by rewrite (entry_absent a k Hka), (entry_absent b k Hkb).
Qed.

Lemma mergeClocks_comm a b :
  counters a → counters b → plain_keys a → plain_keys b →
  mergeClocks a b = mergeClocks b a.
Proof.
  intros Ha Hb Hpa Hpb. apply map_eq. intros k.
  rewrite !mergeClocks_counters_lookup by done.
  rewrite (union_comm_L (dom b)), (Z.max_comm (entry b k)). done.
Qed.

Lemma mergeClocks_assoc a b c :
  counters a → counters b → counters c → plain_keys b → plain_keys c →
  mergeClocks (mergeClocks a b) c = mergeClocks a (mergeClocks b c).
Proof.
  intros Ha Hb Hc Hpb Hpc. apply map_eq. intros k.
  pose proof (mergeClocks_counters a b Ha Hb Hpb).
  pose proof (mergeClocks_counters b c Hb Hc Hpc).
  pose proof (mergeClocks_plain_keys b c Hpb Hpc).
  rewrite !mergeClocks_counters_lookup by done.
  rewrite !mergeClocks_entry, !mergeClocks_dom by done.
  rewrite (assoc_L (∪)), Z.max_assoc. done.
Qed.

Lemma mergeClocks_idemp a : counters a → mergeClocks a a = a.
Proof.
  intros Ha. apply map_eq. intros k. rewrite mergeClocks_lookup.
  destruct (a !! k) as [x|] eqn:Hak; [|done].
  rewrite decide_False by (by intros [_ ?]).
  rewrite (get_property_own a k x Hak).
  destruct (counters_lookup a k x Ha Hak) as (n & -> & _).
  simpl. by rewrite Z.max_id.
Qed.

(** ** Induction on trees *)

Lemma Trie_size_child (ch : gmap string Trie) l k c :
  ch !! k = Some c → (Trie_size c < Trie_size (BranchNode ch l))%nat.
Proof.
  intros Hk. simpl.
  rewrite (map_fold_delete_L _ _ k c ch); [lia| |done].
  intros. lia.
Qed.

Lemma Trie_children_ind (P : Trie → Prop) :
  (∀ value version l, P (ValueNode value version l)) →
  (∀ (ch : gmap string Trie) l,
     (∀ k c, ch !! k = Some c → P c) → P (BranchNode ch l)) →
  ∀ t, P t.
Proof.
  intros Hvalue Hbranch t.
  remember (Trie_size t) as n eqn:Hn. revert t Hn.
  induction n as [n IH] using lt_wf_ind. intros t ->.
  destruct t as [v c l|ch l]; [apply Hvalue|].
  apply Hbranch. intros k c Hk. eapply IH; [|done].
  by eapply Trie_size_child.
Qed.

(** ** [get] and [setInTrie] *)

Lemma get_app p q t :
  get (p ++ q) t = match get p t with Some t' => get q t' | None => None end.
Proof.
  revert t. induction p as [|k p IH]; intros t; simpl; [done|].
  destruct t as [|ch l]; [done|]. destruct (ch !! k); [apply IH | done].
Qed.

Lemma get_empty_not_value p value version l :
  get p empty ≠ Some (ValueNode value version l).
Proof. destruct p; simpl; [done|]. by rewrite lookup_empty. Qed.

Lemma through_leaf_nil t : ¬ through_leaf [] t.
Proof.
  intros (p1 & p2 & ? & ? & ? & Hp & Hne & _).
  symmetry in Hp. by apply app_eq_nil in Hp as [_ ->].
Qed.

Lemma through_leaf_value key rest value version l :
  through_leaf (key :: rest) (ValueNode value version l).
Proof. exists [], (key :: rest), value, version, l. done. Qed.

Lemma through_leaf_branch key rest (ch : gmap string Trie) l :
  through_leaf (key :: rest) (BranchNode ch l) ↔
  through_leaf rest (default empty (ch !! key)).
Proof.
  split.
  - intros ([|k p1] & p2 & v & c & l' & Hp & Hne & Hget); [done|].
    simpl in Hp, Hget. injection Hp as <- ->.
    destruct (ch !! key) as [next|]; [|done]. simpl.
    by exists p1, p2, v, c, l'.
  - intros (p1 & p2 & v & c & l' & -> & Hne & Hget).
    exists (key :: p1), p2, v, c, l'. split_and!; [done..|]. simpl.
    destruct (ch !! key) as [next|]; [done|].
    by apply get_empty_not_value in Hget.
Qed.

(** [setInTrie] throws exactly on a path that descends through a leaf, and
    otherwise returns a tree. *)
Lemma setInTrie_outcome path value version t :
  match setInTrie path value version t with
  | Throw m => m = "Cannot set path on value node" ∧ through_leaf path t
  | Ok t' => ¬ through_leaf path t
  end.
Proof.
  revert t. induction path as [|key rest IH]; intros t; simpl.
  - apply through_leaf_nil.
  - destruct t as [v c l|ch l].
    + split; [done | apply through_leaf_value].
    + specialize (IH (default empty (ch !! key))). unfold bind.
      destruct (setInTrie rest value version (default empty (ch !! key)));
        rewrite through_leaf_branch; done.
Qed.

(** After a successful [setInTrie] the path leads to the new leaf, which
    holds the whole payload. *)
Lemma get_setInTrie path value version t t' :
  setInTrie path value version t = Ok t' →
  get path t' = Some (ValueNode value version true).
Proof.
  revert t t'. induction path as [|key rest IH]; intros t t'; simpl.
  - by intros [= <-].
  - destruct t as [|ch l]; [done|]. unfold bind.
    destruct (setInTrie rest value version (default empty (ch !! key)))
      as [child'|] eqn:Hrec; [|done].
    intros [= <-]. rewrite lookup_insert_eq. by eapply IH.
Qed.

(** The paths that do not start like [path] are left as they were. *)
Lemma get_setInTrie_other path value version t t' key key' q :
  setInTrie (key :: path) value version t = Ok t' →
  key ≠ key' →
  get (key' :: q) t' = get (key' :: q) t.
Proof.
  simpl. destruct t as [|ch l]; [done|]. unfold bind.
  destruct (setInTrie path value version (default empty (ch !! key)));
    [|done].
  intros [= <-] Hne. by rewrite lookup_insert_ne.
Qed.

(** ** [set] *)

Lemma set_outcome path value c :
  match set path value c with
  | Throw m =>
      m = "Cannot set path on value node" ∧ through_leaf path (root c)
  | Ok c' =>
      ¬ through_leaf path (root c) ∧
      id c' = id c ∧
      version c' =
        <[id c := plus_one (get_property (version c) (id c))]>
          (version c) ∧
      get path (root c') = Some (ValueNode value (version c') true)
  end.
Proof.
  unfold set, bind.
  pose proof (setInTrie_outcome path value
    (<[id c := plus_one (get_property (version c) (id c))]> (version c))
    (root c)) as Hout.
  destruct (setInTrie path value _ (root c)) as [t'|m] eqn:Hset; [|done].
  simpl. split_and!; [done..|]. by eapply get_setInTrie.
Qed.

(** ** [mergeTries] *)

Lemma mergeTries_branches ac la bc lb :
  mergeTries (BranchNode ac la) (BranchNode bc lb) =
  BranchNode (mergeChildren ac bc) false.
Proof. reflexivity. Qed.

(** Segment by segment: a segment of both sides holds the merge of the two
    children, a segment of one side holds that side's child. *)
Lemma mergeChildren_lookup ac bc k :
  mergeChildren ac bc !! k =
    match ac !! k, bc !! k with
    | Some x, Some y => Some (mergeTries x y)
    | Some x, None => Some x
    | None, Some y => Some y
    | None, None => None
    end.
Proof.
  unfold mergeChildren. revert k.
  apply (map_fold_weak_ind (λ (r m : gmap string Trie), ∀ k,
    r !! k = match ac !! k, m !! k with
             | Some x, Some y => Some (mergeTries x y)
             | Some x, None => Some x
             | None, Some y => Some y
             | None, None => None
             end)).
  - intros k. rewrite lookup_empty. by destruct (ac !! k).
  - intros i y m r Hi IH k. unfold mergeTries_step.
    destruct (decide (i = k)) as [->|Hne].
    + rewrite !lookup_insert_eq. rewrite IH, Hi. by destruct (ac !! k).
    + rewrite !lookup_insert_ne by done. apply IH.
Qed.

(** The order in which the entries of [b] are visited does not matter. *)
Lemma mergeChildren_loop_lookup bs (ac : gmap string Trie) k :
  NoDup bs.*1 →
  mergeChildren_loop bs ac !! k =
    match ac !! k, (list_to_map bs : gmap string Trie) !! k with
    | Some x, Some y => Some (mergeTries x y)
    | Some x, None => Some x
    | None, Some y => Some y
    | None, None => None
    end.
Proof.
  unfold mergeChildren_loop. revert ac.
  induction bs as [|[i y] bs IH]; intros ac Hnd; simpl.
  - rewrite lookup_empty. by destruct (ac !! k).
  - apply NoDup_cons in Hnd as [Hi Hnd]. rewrite IH by done.
    unfold mergeTries_step. destruct (decide (i = k)) as [->|Hne].
    + rewrite !lookup_insert_eq.
      rewrite (not_elem_of_list_to_map_1 bs k Hi). by destruct (ac !! k).
    + by rewrite !lookup_insert_ne.
Qed.

Lemma mergeChildren_any_order bs ac bc :
  NoDup bs.*1 → list_to_map bs = bc →
  mergeChildren_loop bs ac = mergeChildren ac bc.
Proof.
  intros Hnd <-. apply map_eq. intros k.
  by rewrite mergeChildren_loop_lookup, mergeChildren_lookup.
Qed.


(** ** The store: the maps of the input tree are not written to *)

Lemma represents_branch σ (ch : gmap string Trie) l h :
  represents σ (BranchNode ch l) h ↔
  ∃ l0 m,
    h = HBranch l0 l ∧ σ !! l0 = Some m ∧ dom m = dom ch ∧
    ∀ key child, ch !! key = Some child →
      ∃ h', m !! key = Some h' ∧ represents σ child h'.
Proof.
  assert (∀ m : gmap string HNode,
    map_fold
      (λ key child others,
         (∃ h', m !! key = Some h' ∧ represents σ child h') ∧ others)
      True ch ↔
    ∀ key child, ch !! key = Some child →
      ∃ h', m !! key = Some h' ∧ represents σ child h') as Hfold.
  { intros m.
    apply (map_fold_weak_ind (λ (r : Prop) (ch' : gmap string Trie),
      r ↔ ∀ key child, ch' !! key = Some child →
            ∃ h', m !! key = Some h' ∧ represents σ child h')).
    - split; [|done]. intros _ key child. by rewrite lookup_empty.
    - intros i x ch' r Hi IH. rewrite IH. split.
      + intros [Hx Hall] key child.
        destruct (decide (i = key)) as [->|Hne].
        * rewrite lookup_insert_eq. by intros [= <-].
        * rewrite lookup_insert_ne by done. apply Hall.
      + intros Hall. split; [apply Hall, lookup_insert_eq|].
        intros key child Hk. apply Hall.
        rewrite lookup_insert_ne; [done|]. intros ->. congruence. }
  split; intros (l0 & m & ? & ? & ? & ?); exists l0, m;
    split_and!; try done; by apply Hfold.
Qed.

Lemma represents_mono (σ σ' : store) t h :
  σ ⊆ σ' → represents σ t h → represents σ' t h.
Proof.
  intros Hsub. revert h.
  induction t as [v c l|ch l IH] using Trie_children_ind; intros h; [done|].
  rewrite !represents_branch. intros (l0 & m & -> & Hl0 & Hdom & Hall).
  exists l0, m. split_and!; [done | by eapply lookup_weaken | done |].
  intros key child Hk. destruct (Hall key child Hk) as (h' & Hh' & Hrep).
  exists h'. split; [done|]. by eapply IH.
Qed.

Lemma difference_subseteq (σ σ' : store) : σ' ∖ σ ⊆ σ'.
Proof.
  apply map_subseteq_spec. intros l x.
  rewrite lookup_difference_Some. by intros [? _].
Qed.

(** What was allocated below a fresh location does not depend on it. *)
Lemma store_frame (σ0 σ σ1 σ2 σ3 : store) children x :
  σ ⊆ σ1 → σ1 ⊆ σ2 → σ2 ⊆ σ3 →
  σ !! children = None → is_Some (σ1 !! children) →
  (σ0 ∪ (σ2 ∖ σ1)) ∪ (σ3 ∖ σ2) ⊆ σ0 ∪ (<[children := x]> σ3 ∖ σ).
Proof.
  intros H01 H12 H23 Hc [y Hy]. apply map_subseteq_spec. intros l z.
  rewrite !lookup_union_Some_raw, !lookup_difference_Some,
    !lookup_union_None, !lookup_difference_None.
  assert (σ1 !! l = None → σ3 !! l = Some z →
          <[children := x]> σ3 !! l = Some z ∧ σ !! l = None) as Hnew.
  { intros Hl1 Hl3. split; [|by eapply lookup_weaken_None].
    rewrite lookup_insert_ne; [done|]. intros ->. congruence. }
  intros [[?|(? & ? & ?)]|[[? _] [? ?]]]; [by left|right..].
  - split; [done|]. apply Hnew; [done|]. by eapply lookup_weaken.
  - split; [done|]. apply Hnew; [|done]. by eapply lookup_weaken_None.
Qed.

(** [h_setInTrie] on a node that is the tree [t] does what [setInTrie] does
    on [t], and every map of the store it started from is left as it was.
    The result lives in the maps of the input tree and the new maps. *)
Lemma h_setInTrie_refines path value version :
  ∀ t h (σ0 σ : store),
    represents σ0 t h → σ0 ⊆ σ →
    ∃ r σ',
      h_setInTrie path value version h σ = (r, σ') ∧ σ ⊆ σ' ∧
      match r with
      | Throw m => setInTrie path value version t = Throw m
      | Ok h' =>
          ∃ t', setInTrie path value version t = Ok t' ∧
                represents (σ0 ∪ (σ' ∖ σ)) t' h'
      end.
Proof.
  induction path as [|key rest IH]; intros t h σ0 σ Hrep Hsub.
  - exists (Ok (HValue value version true)), σ. split_and!; [done..|].
    by eexists.
  - destruct t as [v c l|ch l].
    { simpl in Hrep. subst h.
      by exists (Throw "Cannot set path on value node"), σ. }
    apply represents_branch in Hrep as (l0 & m & -> & Hl0 & Hdom & Hall).
    simpl.
    assert (Map_entries σ l0 = m) as ->.
    { unfold Map_entries. by rewrite (lookup_weaken _ _ _ _ Hl0 Hsub). }
    set (children := fresh (dom σ)). set (σ1 := <[children := m]> σ).
    assert (σ !! children = None) as Hfresh by apply not_elem_of_dom, is_fresh.
    assert (σ ⊆ σ1) as H01 by (by apply insert_subseteq).
    assert (σ1 !! children = Some m) as Hc1 by apply lookup_insert_eq.
    assert (Map_get σ1 children key = m !! key) as ->.
    { unfold Map_get, Map_entries. by rewrite Hc1. }
    assert (∃ child σ2,
      match m !! key with
      | Some child => (child, σ1)
      | None => h_empty σ1
      end = (child, σ2) ∧ σ1 ⊆ σ2 ∧
      represents (σ0 ∪ (σ2 ∖ σ1)) (default empty (ch !! key)) child)
      as (child & σ2 & -> & H12 & Hchild).
    { destruct (m !! key) as [hc|] eqn:Hm.
      - assert (is_Some (ch !! key)) as [tc Htc].
        { apply elem_of_dom. rewrite <- Hdom. apply elem_of_dom. eauto. }
        destruct (Hall key tc Htc) as (h' & Hh' & Hrep').
        rewrite Hm in Hh'. injection Hh' as <-.
        exists hc, σ1. split_and!; [done..|]. rewrite Htc. simpl.
        eapply represents_mono; [|done]. apply map_union_subseteq_l.
      - assert (ch !! key = None) as ->.
        { apply not_elem_of_dom. rewrite <- Hdom. by apply not_elem_of_dom. }
        unfold h_empty, new_Map. set (l' := fresh (dom σ1)).
        assert (σ1 !! l' = None) as Hl' by apply not_elem_of_dom, is_fresh.
        exists (HBranch l' false), (<[l' := ∅]> σ1).
        split_and!; [done | by apply insert_subseteq |].
        apply represents_branch. exists l', ∅. split_and!; [done| |done|].
        + apply lookup_union_Some_raw. right.
          split; [eapply lookup_weaken_None; [done|]; by etrans|].
          apply lookup_difference_Some. by rewrite lookup_insert_eq.
        + intros k tk. by rewrite lookup_empty. }
    destruct (IH (default empty (ch !! key)) child (σ0 ∪ (σ2 ∖ σ1)) σ2 Hchild)
      as (r & σ3 & -> & H23 & Hres).
    { apply map_union_least; [|apply difference_subseteq].
      do 2 (etrans; [done|]). done. }
    destruct r as [child'|msg].
    + destruct Hres as (t'c & Hpure & Hrep').
      assert (Map_entries σ3 children = m) as Hm3.
      { unfold Map_entries. rewrite (lookup_weaken σ1 σ3 children m); [done..|].
        by etrans. }
      exists (Ok (HBranch children false)), (Map_set σ3 children key child').
      split_and!; [done| |].
      { unfold Map_set. apply insert_subseteq_r; [done|].
        do 2 (etrans; [done|]). done. }
      exists (BranchNode (<[key := t'c]> ch) false).
      split; [unfold bind; by rewrite Hpure|].
      apply represents_branch. exists children, (<[key := child']> m).
      split_and!; [done| | |].
      * apply lookup_union_Some_raw. right.
        split; [by eapply lookup_weaken_None|].
        apply lookup_difference_Some. split; [|done].
        unfold Map_set. by rewrite lookup_insert_eq, Hm3.
      * by rewrite !dom_insert_L, Hdom.
      * intros k tk Hk. destruct (decide (key = k)) as [<-|Hne].
        -- rewrite lookup_insert_eq in Hk. injection Hk as <-.
           exists child'. split; [by rewrite lookup_insert_eq|].
           eapply represents_mono; [|done]. unfold Map_set.
           by eapply store_frame.
        -- rewrite lookup_insert_ne in Hk by done.
           destruct (Hall k tk Hk) as (h' & Hh' & Hrep'').
           exists h'. split; [by rewrite lookup_insert_ne|].
           eapply represents_mono; [|done]. apply map_union_subseteq_l.
    + exists (Throw msg), σ3. split_and!; [done| |].
      * do 2 (etrans; [done|]). done.
      * unfold bind. by rewrite Hres.
Qed.

Lemma represents_container_mono (σ σ' : store) c hc :
  σ ⊆ σ' → represents_container σ c hc → represents_container σ' c hc.
Proof.
  intros Hsub (Hroot & Hid & Hver). split_and!; [|done..].
  by eapply represents_mono.
Qed.

(** [h_set] on a container of the store does what [set] does, and leaves
    every map of the store it started from as it was. *)
Lemma h_set_refines path value c hc (σ : store) :
  represents_container σ c hc →
  ∃ r σ',
    h_set path value hc σ = (r, σ') ∧ σ ⊆ σ' ∧
    match r with
    | Throw m => set path value c = Throw m
    | Ok hc' =>
        ∃ c', set path value c = Ok c' ∧ represents_container σ' c' hc'
    end.
Proof.
  intros (Hroot & Hid & Hver). unfold h_set, set. rewrite <- Hid, <- Hver.
  destruct (h_setInTrie_refines path value
              (<[id c := plus_one (get_property (version c) (id c))]>
                 (version c))
              (root c) (h_root hc) σ σ Hroot)
    as (r & σ' & -> & Hsub & Hres); [done|].
  destruct r as [root'|m].
  - destruct Hres as (t' & -> & Hrep).
    eexists _, σ'. split_and!; [done..|]. eexists. split; [done|].
    split_and!; [|done..]. simpl. eapply represents_mono; [|done].
    apply map_union_least; [done | apply difference_subseteq].
  - exists (Throw m), σ'. by rewrite Hres.
Qed.

Lemma represents_container_a :
  represents_container store_a (createContainer "a") h_container_a.
Proof.
  split_and!; [|done..]. apply represents_branch.
  exists 0%nat, ∅. split_and!; [done..|]. intros k t. by rewrite lookup_empty.
Qed.

Lemma represents_replica_a :
  represents_container store_replica_a replica_a h_replica_a.
Proof.
  split_and!; [|done..]. apply represents_branch.
  exists 0%nat, {[ "x" := HValue (JNumber 1) {[ "a" := Num 1 ]} true ]}.
  split_and!; [done | done | by rewrite !dom_singleton_L |].
  intros k t [<- <-]%lookup_singleton_Some.
  eexists. by rewrite lookup_singleton_eq.
Qed.

(** ** The claims on clocks *)

(** On counters, where no key of [b] names a member of
    [Object.prototype], a clock that is before another one is reported
    so. *)
Lemma before_happensBefore a b :
  counters a → counters b → plain_keys b →
  before a b → happensBefore a b = true.
Proof.
  intros Ha Hb Hpb [Hle (k & Hlt)]. apply happensBefore_counters; [done..|].
  split; [auto|]. exists k. split; [|done].
  destruct (b !! k) eqn:Hk; [by eexists|].
  rewrite (entry_absent b k Hk) in Hlt.
  destruct (counters_or_zero a k Ha). lia.
Qed.

(** The converse holds when every key of [a] is a key of [b]. *)
Lemma happensBefore_before a b :
  counters a → counters b → plain_keys b → dom a ⊆ dom b →
  happensBefore a b = true → before a b.
Proof.
  intros Ha Hb Hpb Hsub.
  intros [Hle (k & Hk & Hlt)]%happensBefore_counters; [|done..].
  split; [|by exists k]. intros k'.
  destruct (b !! k') as [y|] eqn:Hk'; [apply Hle; by eexists|].
  assert (a !! k' = None) as Hak.
  { apply not_elem_of_dom. intros Hin%Hsub. by apply not_elem_of_dom in Hk'. }
  by rewrite (entry_absent a k' Hak), (entry_absent b k' Hk').
Qed.

(** C1. [happensBefore(a, b)] is meant to hold exactly when [a] is before
    [b]; the loop only visits the keys of [b], so on [a = {x: 1}] and
    [b = {y: 1}] it returns [true] although the entry of [a] at [x] exceeds
    the one of [b]; it returns [true] in the other direction as well. *)
Theorem happensBefore_misses_keys_absent_from_b :
  happensBefore {[ "x" := Num 1 ]} {[ "y" := Num 1 ]} = true ∧
  happensBefore {[ "y" := Num 1 ]} {[ "x" := Num 1 ]} = true ∧
  entry {[ "x" := Num 1 ]} "x" > entry {[ "y" := Num 1 ]} "x" ∧
  ¬ before {[ "x" := Num 1 ]} {[ "y" := Num 1 ]}.
Proof.
  split_and!; [by vm_compute..|].
  intros [Hle _]. specialize (Hle "x"). vm_compute in Hle. by apply Hle.
Qed.

(** C8. [mergeClocks(a, b)] is meant to be the pointwise maximum of [a]
    and [b] over the union of their keys, and commutative. The loop reads
    [result[nodeId] || 0] on a plain object, where a key of [b] that [a]
    lacks may find a member of [Object.prototype]: on [a = {a: 1}] and
    [b = {constructor: 1}], two clocks of counters, the merged entry at
    [constructor] is [NaN] where the maximum is [1], and it is [1] in the
    other argument order; a key [__proto__] of [b] that [a] lacks is
    dropped. The scenario of the claim evaluates as claimed. *)
Theorem mergeClocks_reads_inherited_members :
  counters {[ "a" := Num 1 ]} ∧ counters {[ "constructor" := Num 1 ]} ∧
  mergeClocks {[ "a" := Num 1 ]} {[ "constructor" := Num 1 ]}
    = {[ "a" := Num 1; "constructor" := NaN ]} ∧
  mergeClocks {[ "constructor" := Num 1 ]} {[ "a" := Num 1 ]}
    = {[ "a" := Num 1; "constructor" := Num 1 ]} ∧
  mergeClocks {[ "a" := Num 1 ]} {[ "__proto__" := Num 1 ]}
    = {[ "a" := Num 1 ]} ∧
  mergeClocks {[ "r1" := Num 1; "r2" := Num 2 ]}
              {[ "r2" := Num 3; "r3" := Num 1 ]}
    = {[ "r1" := Num 1; "r2" := Num 3; "r3" := Num 1 ]}.
Proof.
  split_and!; [apply (bool_decide_unpack _); vm_compute; exact I..| | | |];
    by vm_compute.
Qed.

(** ** The claims on [merge] *)

(** C10. The merged container carries the identifier of the first argument,
    on the same-id path as on the structural path. *)
Theorem merge_id a b : id (merge a b) = id a.
Proof.
  unfold merge. destruct (decide (id a = id b)) as [Heq|Hne]; [|done].
  by destruct (happensBefore (version a) (version b)).
Qed.




(** C3, as stated, fails: on two leaves with concurrent clocks the result
    keeps the version of the first argument, which is not the clock-merge,
    and the winning value depends on the argument order. *)
Lemma concurrent_leaves_not_merged :
  happensBefore {[ "x" := Num 2; "y" := Num 1 ]}
                {[ "x" := Num 1; "y" := Num 2 ]} = false ∧
  happensBefore {[ "x" := Num 1; "y" := Num 2 ]}
                {[ "x" := Num 2; "y" := Num 1 ]} = false ∧
  nodeVersion leaf_p ≠ nodeVersion leaf_q ∧
  nodeVersion (mergeTries leaf_p leaf_q)
    ≠ Some (mergeClocks {[ "x" := Num 2; "y" := Num 1 ]}
                        {[ "x" := Num 1; "y" := Num 2 ]}) ∧
  toValue_node (mergeTries leaf_p leaf_q)
    ≠ toValue_node (mergeTries leaf_q leaf_p).
Proof.
  split_and!; [by vm_compute..| | |by vm_compute].
  - intros Heq. apply (f_equal (λ c, c ≫= (.!! "x"))) in Heq.
    vm_compute in Heq. discriminate.
  - intros Heq. apply (f_equal (λ c, c ≫= (.!! "y"))) in Heq.
    vm_compute in Heq. discriminate.
Qed.

(** C3, amended. When [mergeTries] is applied to two value leaves neither
    of whose clocks happens before the other, the result is the first
    argument as it is, with its own value and its own version; in the other
    argument order it is the other leaf. *)
Theorem mergeTries_concurrent_leaves va ca la vb cb lb :
  happensBefore ca cb = false → happensBefore cb ca = false →
  mergeTries (ValueNode va ca la) (ValueNode vb cb lb) = ValueNode va ca la ∧
  mergeTries (ValueNode vb cb lb) (ValueNode va ca la) = ValueNode vb cb lb.
Proof. intros Hab Hba. simpl. by rewrite Hab, Hba. Qed.

Lemma mergeTries_concurrent_leaves_witness :
  happensBefore {[ "x" := Num 2; "y" := Num 1 ]}
                {[ "x" := Num 1; "y" := Num 2 ]} = false ∧
  happensBefore {[ "x" := Num 1; "y" := Num 2 ]}
                {[ "x" := Num 2; "y" := Num 1 ]} = false ∧
  mergeTries leaf_p leaf_q = leaf_p ∧ mergeTries leaf_q leaf_p = leaf_q.
Proof.
  split_and!; [vm_compute; reflexivity..| |];
    apply (mergeTries_concurrent_leaves
             (JNumber 1) {[ "x" := Num 2; "y" := Num 1 ]} true
             (JNumber 2) {[ "x" := Num 1; "y" := Num 2 ]} true);
    vm_compute; reflexivity.
Defined.

(** C5. On one value leaf and one branch [mergeTries] is meant to pick a
    side by a rule and to keep what only the other side reaches; the code
    returns its second argument, whatever the versions are (its comment
    says: the newer one based on container version). The path [x] resolves
    to a value in the branch only, and no longer resolves once the branch
    is merged with a leaf given as second argument; in the other argument
    order it still does. *)
Theorem mixed_merge_drops_branch :
  get ["x"] branch_x = Some (ValueNode (JNumber 1) {[ "a" := Num 1 ]} true) ∧
  get ["x"] leaf_b = None ∧
  mergeTries branch_x leaf_b = leaf_b ∧
  get ["x"] (mergeTries branch_x leaf_b) = None ∧
  get ["x"] (mergeTries leaf_b branch_x)
    = Some (ValueNode (JNumber 1) {[ "a" := Num 1 ]} true).
Proof. split_and!; by vm_compute. Qed.

(** ** The claims on [set] *)

(** [createContainer] gives the container a counter of its own, and [set]
    and [merge] keep it. *)
Lemma createContainer_own_entry i : own_entry (createContainer i).
Proof. exists 0. simpl. apply lookup_singleton_eq. Qed.

Lemma set_own_entry path value c c' :
  own_entry c → set path value c = Ok c' → own_entry c'.
Proof.
  intros [n Hn] Hset. pose proof (set_outcome path value c) as Hout.
  rewrite Hset in Hout. destruct Hout as (_ & Hid & Hver & _).
  exists (double_succ n).
  by rewrite Hid, Hver, lookup_insert_eq, (get_property_own _ _ _ Hn).
Qed.

Lemma merge_own_entry a b :
  counters (version a) → counters (version b) → plain_keys (version b) →
  own_entry a → own_entry b → own_entry (merge a b).
Proof.
  intros Ha Hb Hpb [n Hn] Hown. unfold merge.
  destruct (decide (id a = id b)) as [Heq|Hne].
  - destruct (happensBefore (version a) (version b)); [done | by exists n].
  - unfold own_entry. simpl. rewrite mergeClocks_counters_lookup by done.
    rewrite decide_True; [by eexists|].
    apply elem_of_union_l, elem_of_dom. by eexists.
Qed.

(** C6. [set] is meant to count an absent entry of the container's own
    identifier as [0]; the code computes [version[id] + 1] with no [|| 0],
    so on a container whose clock has no entry for its identifier the new
    entry is [NaN], where the claim has [1]. *)
Theorem set_absent_own_entry :
  ∃ c', set ["x"] (JNumber 1) orphan = Ok c' ∧
        version orphan !! id orphan = None ∧
        version c' !! id orphan = Some NaN ∧
        version c' !! id orphan
          ≠ Some (Num (entry (version orphan) (id orphan) + 1)).
Proof. eexists. split_and!; [by vm_compute..|]. by vm_compute. Qed.

(** C7. [set] throws exactly when the path descends through a value leaf,
    that is when a non-empty remainder of the path is left at an existing
    leaf. In that case no container is returned; in every other case one
    is, with the new leaf at the path. Either way the maps of the store
    [set] started from are as they were, so that the input container is
    still what it was. *)
Theorem set_throws_through_leaf path value c hc (σ : store) :
  represents_container σ c hc →
  ∃ r σ',
    h_set path value hc σ = (r, σ') ∧
    σ ⊆ σ' ∧ represents_container σ' c hc ∧
    match r with
    | Throw m =>
        m = "Cannot set path on value node" ∧ through_leaf path (root c)
    | Ok hc' =>
        ¬ through_leaf path (root c) ∧
        ∃ c', set path value c = Ok c' ∧
              represents_container σ' c' hc' ∧
              get path (root c') = Some (ValueNode value (version c') true)
    end.
Proof.
  intros Hrep.
  destruct (h_set_refines path value c hc σ Hrep)
    as (r & σ' & Hrun & Hsub & Hres).
  exists r, σ'. split_and!; [done..|by eapply represents_container_mono|].
  pose proof (set_outcome path value c) as Hout.
  destruct r as [hc'|m].
  - destruct Hres as (c' & Hset & Hrep'). rewrite Hset in Hout.
    destruct Hout as (Hno & _ & _ & Hget). split; [done|]. by exists c'.
  - by rewrite Hres in Hout.
Qed.

Lemma set_throws_through_leaf_witness :
  represents_container store_replica_a replica_a h_replica_a ∧
  ∃ σ',
    h_set ["x"; "y"] (JNumber 2) h_replica_a store_replica_a
      = (Throw "Cannot set path on value node", σ') ∧
    store_replica_a ⊆ σ' ∧
    represents_container σ' replica_a h_replica_a ∧
    through_leaf ["x"; "y"] (root replica_a).
Proof.
  split; [apply represents_replica_a|].
  destruct (set_throws_through_leaf ["x"; "y"] (JNumber 2) replica_a
              h_replica_a store_replica_a represents_replica_a)
    as (r & σ' & Hrun & Hsub & Hrep & Hres).
  assert (∃ σ1, h_set ["x"; "y"] (JNumber 2) h_replica_a store_replica_a
                = (Throw "Cannot set path on value node", σ1))
    as [σ1 Hrun1] by (eexists; vm_compute; reflexivity).
  rewrite Hrun1 in Hrun. injection Hrun as <- <-.
  exists σ1. by destruct Hres as [_ Hleaf].
Defined.

(** Nothing is stored below the path of a successful [setInTrie]. *)
Lemma get_setInTrie_below path value version t t' key q :
  setInTrie path value version t = Ok t' →
  get (path ++ key :: q) t' = None.
Proof. intros Hset. by rewrite get_app, (get_setInTrie _ _ _ _ _ Hset). Qed.

(** C4. A compound payload is meant to be decomposed into the trie; [set]
    stores the sequence [[1, 2]] whole, in a single value leaf at [data],
    and the path [data/0] of its first element does not resolve; likewise
    for the record [{name: 'test'}] and the path [data/name]. *)
Theorem set_keeps_compound_whole :
  ∃ c1 c2,
    set ["data"] (JArray [JNumber 1; JNumber 2]) (createContainer "r")
      = Ok c1 ∧
    get ["data"] (root c1)
      = Some (ValueNode (JArray [JNumber 1; JNumber 2])
                        {[ "r" := Num 1 ]} true) ∧
    get ["data"; "0"] (root c1) = None ∧
    toValue (get ["data"; "0"] (root c1)) ≠ JNumber 1 ∧
    set ["data"] (JObject {[ "name" := JString "test" ]})
        (createContainer "r")
      = Ok c2 ∧
    get ["data"] (root c2)
      = Some (ValueNode (JObject {[ "name" := JString "test" ]})
                        {[ "r" := Num 1 ]} true) ∧
    get ["data"; "name"] (root c2) = None.
Proof. eexists _, _. split_and!; by vm_compute. Qed.

(** ** The claim on removal *)

(** [removeValue] keeps a leaf in place, without its value. *)
Lemma get_removeValue_leaf path t value version l :
  get path t = Some (ValueNode value version l) →
  get path (removeValue path t) = Some (ValueNode JUndefined version l).
Proof.
  revert t. induction path as [|key rest IH]; intros t; simpl.
  - by intros [= ->].
  - destruct t as [|ch l0]; [done|].
    destruct (ch !! key) as [child|] eqn:Hk; [|done].
    intros Hget. simpl. rewrite lookup_insert_eq. by apply IH.
Qed.

Lemma has_removeValue_leaf path t value version l :
  get path t = Some (ValueNode value version l) →
  has path (removeValue path t) = true ∧
  toValue (get path (removeValue path t)) = JUndefined.
Proof.
  intros Hget. unfold has.
  by rewrite (get_removeValue_leaf _ _ _ _ _ Hget).
Qed.

(** [removePath] takes a leaf away. *)
Lemma prune_leaf path t value version l :
  get path t = Some (ValueNode value version l) →
  match prune path t with
  | Some t' => get path t' = None
  | None => True
  end.
Proof.
  revert t. induction path as [|key rest IH]; intros t; simpl.
  - by intros [= ->].
  - destruct t as [|ch l0]; [done|].
    destruct (ch !! key) as [child|] eqn:Hk; [|done].
    intros Hget. specialize (IH child Hget).
    destruct (prune rest child) as [child'|].
    + simpl. by rewrite lookup_insert_eq.
    + case_decide; [done|]. simpl. by rewrite lookup_delete_eq.
Qed.

Lemma has_removePath_leaf key rest t value version l :
  get (key :: rest) t = Some (ValueNode value version l) →
  has (key :: rest) (removePath (key :: rest) t) = false.
Proof.
  intros Hget. unfold has, removePath.
  pose proof (prune_leaf _ _ _ _ _ Hget) as Hprune.
  destruct (prune (key :: rest) t) as [t'|].
  - simpl in *. by rewrite Hprune.
  - simpl. by rewrite lookup_empty.
Qed.

(** Both leave the paths that start with another segment as they were. *)
Lemma get_removeValue_other key p key' q t :
  key ≠ key' →
  get (key' :: q) (removeValue (key :: p) t) = get (key' :: q) t.
Proof.
  intros Hne. destruct t as [|ch l0]; [done|]. simpl.
  destruct (ch !! key) as [child|]; [|done].
  simpl. by rewrite lookup_insert_ne.
Qed.

Lemma get_removePath_other key p key' q t :
  key ≠ key' →
  get (key' :: q) (removePath (key :: p) t) = get (key' :: q) t.
Proof.
  intros Hne. unfold removePath. destruct t as [|ch l0]; [done|]. simpl.
  destruct (ch !! key) as [child|]; [|done].
  destruct (prune p child) as [child'|].
  - simpl. by rewrite lookup_insert_ne.
  - case_decide as Hempty; simpl.
    + rewrite lookup_empty.
      by rewrite <- (lookup_delete_ne ch key key'), Hempty, lookup_empty.
    + by rewrite lookup_delete_ne.
Qed.

(** C9. On [t = set(['a','b'], 1, set(['a','c'], 2, empty()))],
    [removeValue(['a','b'], t)] keeps the path [a/b] present with no value,
    [removePath(['a','b'], t)] makes it absent, and both keep the value [2]
    at [a/c]. *)
Theorem removeValue_removePath_differ :
  bind (setValue ["a"; "c"] (JNumber 2) empty)
       (setValue ["a"; "b"] (JNumber 1)) = Ok tree_abc ∧
  has ["a"; "b"] (removeValue ["a"; "b"] tree_abc) = true ∧
  toValue (get ["a"; "b"] (removeValue ["a"; "b"] tree_abc)) = JUndefined ∧
  has ["a"; "b"] (removePath ["a"; "b"] tree_abc) = false ∧
  toValue (get ["a"; "c"] (removeValue ["a"; "b"] tree_abc)) = JNumber 2 ∧
  toValue (get ["a"; "c"] (removePath ["a"; "b"] tree_abc)) = JNumber 2.
Proof. split_and!; by vm_compute. Qed.

(** * Further properties of the clocks *)

Lemma happensBefore_irrefl a : happensBefore a a = false.
Proof.
  apply not_true_is_false.
  intros [_ (k & y & Hk & Hlt)]%happensBefore_true.
  rewrite (get_property_own a k y Hk) in Hlt.
  destruct y as [n| |t]; simpl in Hlt; [|done|].
  - apply bool_decide_eq_true in Hlt. lia.
  - by rewrite string_ltb_irrefl in Hlt.
Qed.

(** X1. No clock happens before itself, whatever its entries are ([NaN]
    and negative numbers included). *)
Theorem happensBefore_irreflexive a : happensBefore a a = false.
Proof. apply happensBefore_irrefl. Qed.

(** X2. On clocks of counters, when every key of [a] is a key of [b] and
    no key of [b] names a member of [Object.prototype],
    [happensBefore(a, b)] holds exactly when [a] is before [b]: every entry
    of [a] is at most the one of [b] and one is strictly less. *)
Theorem happensBefore_iff_before a b :
  counters a → counters b → plain_keys b → dom a ⊆ dom b →
  happensBefore a b = true ↔ before a b.
Proof.
  intros Ha Hb Hpb Hsub. split.
  - by apply happensBefore_before.
  - by apply before_happensBefore.
Qed.

Lemma happensBefore_iff_before_witness :
  counters {[ "x" := Num 1 ]} ∧
  counters {[ "x" := Num 2; "y" := Num 1 ]} ∧
  plain_keys {[ "x" := Num 2; "y" := Num 1 ]} ∧
  dom ({[ "x" := Num 1 ]} : VectorClock)
    ⊆ dom ({[ "x" := Num 2; "y" := Num 1 ]} : VectorClock) ∧
  (happensBefore {[ "x" := Num 1 ]} {[ "x" := Num 2; "y" := Num 1 ]} = true
   ↔ before {[ "x" := Num 1 ]} {[ "x" := Num 2; "y" := Num 1 ]}).
Proof.
  assert (counters {[ "x" := Num 1 ]}) as Ha
    by (apply (bool_decide_unpack _); vm_compute; exact I).
  assert (counters {[ "x" := Num 2; "y" := Num 1 ]}) as Hb
    by (apply (bool_decide_unpack _); vm_compute; exact I).
  assert (plain_keys {[ "x" := Num 2; "y" := Num 1 ]}) as Hpb
    by (apply (bool_decide_unpack _); vm_compute; exact I).
  assert (dom ({[ "x" := Num 1 ]} : VectorClock)
            ⊆ dom ({[ "x" := Num 2; "y" := Num 1 ]} : VectorClock)) as Hsub
    by (apply (bool_decide_unpack _); vm_compute; exact I).
  split_and!; [done..|].
  apply (happensBefore_iff_before _ _ Ha Hb Hpb Hsub).
Defined.

(** X3. On clocks of counters, where no key of [b] names a member of
    [Object.prototype], [happensBefore] reports every clock that is before
    another one, whatever the keys of [a] are. *)
Theorem before_is_reported a b :
  counters a → counters b → plain_keys b →
  before a b → happensBefore a b = true.
Proof. apply before_happensBefore. Qed.

Lemma before_is_reported_witness :
  counters {[ "x" := Num 1 ]} ∧
  counters {[ "x" := Num 2; "y" := Num 1 ]} ∧
  plain_keys {[ "x" := Num 2; "y" := Num 1 ]} ∧
  before {[ "x" := Num 1 ]} {[ "x" := Num 2; "y" := Num 1 ]} ∧
  happensBefore {[ "x" := Num 1 ]} {[ "x" := Num 2; "y" := Num 1 ]} = true.
Proof.
  assert (counters {[ "x" := Num 1 ]}) as Ha
    by (apply (bool_decide_unpack _); vm_compute; exact I).
  assert (counters {[ "x" := Num 2; "y" := Num 1 ]}) as Hb
    by (apply (bool_decide_unpack _); vm_compute; exact I).
  assert (plain_keys {[ "x" := Num 2; "y" := Num 1 ]}) as Hpb
    by (apply (bool_decide_unpack _); vm_compute; exact I).
  assert (before {[ "x" := Num 1 ]} {[ "x" := Num 2; "y" := Num 1 ]}) as Hbe.
  { split.
    - intros k. unfold entry.
      destruct (decide (k = "x")) as [->|Hx]; [by vm_compute|].
      rewrite lookup_singleton_ne by done.
      rewrite lookup_insert_ne by done.
      destruct (decide (k = "y")) as [->|Hy]; [by vm_compute|].
      by rewrite lookup_singleton_ne by done.
    - exists "x". by vm_compute. }
  split_and!; [done..|].
  apply (before_is_reported _ _ Ha Hb Hpb Hbe).
Defined.

(** X4. [mergeClocks] keeps every key but one: the keys of the result are
    those of [a] and those of [b] other than [__proto__], which is a key of
    the result only when it is one of [a]; and an entry whose key is absent
    from [b] is the entry of [a] as it is. This holds for every pair of
    clocks. *)
Theorem mergeClocks_keeps_keys a b :
  dom (mergeClocks a b) = dom a ∪ (dom b ∖ {[ "__proto__" ]}) ∧
  ∀ k, b !! k = None → mergeClocks a b !! k = a !! k.
Proof.
  split.
  - apply set_eq. intros k.
    rewrite elem_of_union, elem_of_difference, not_elem_of_singleton.
    rewrite !elem_of_dom, mergeClocks_lookup.
    destruct (b !! k) as [y|] eqn:Hbk.
    + case_decide as Hp.
      * destruct Hp as [-> ->]. split; [by intros []|].
        intros [[]|[_ []]]; done.
      * split; [|by eexists]. intros _.
        destruct (a !! k) eqn:Hak; [left; by eexists|].
        right. split; [by eexists|]. intros ->. by apply Hp.
    + split; [by left|]. by intros [?|[[] _]].
  - intros k Hk. by rewrite mergeClocks_lookup, Hk.
Qed.

(** X5. On clocks of counters, where no key of [b] names a member of
    [Object.prototype], the merged clock is an upper bound of both: no
    entry is below the entry of [a] or of [b], and the merged clock never
    happens before [a] or [b]. *)
Theorem mergeClocks_upper_bound a b :
  counters a → counters b → plain_keys b →
  (∀ k, entry a k ≤ entry (mergeClocks a b) k ∧
        entry b k ≤ entry (mergeClocks a b) k) ∧
  happensBefore (mergeClocks a b) a = false ∧
  happensBefore (mergeClocks a b) b = false.
Proof.
  intros Ha Hb Hpb. pose proof (mergeClocks_counters a b Ha Hb Hpb) as Hm.
  split_and!.
  - intros k. rewrite mergeClocks_entry by done. lia.
  - apply not_true_is_false.
    intros [_ (k & _ & Hlt)]%happensBefore_counters_dom; [|done..|].
    + rewrite mergeClocks_entry in Hlt by done. lia.
    + rewrite mergeClocks_dom by done. apply union_subseteq_l.
  - apply not_true_is_false.
    intros [_ (k & _ & Hlt)]%happensBefore_counters; [|done..].
    rewrite mergeClocks_entry in Hlt by done. lia.
Qed.

Lemma mergeClocks_upper_bound_witness :
  counters {[ "r1" := Num 1; "r2" := Num 2 ]} ∧
  counters {[ "r2" := Num 3; "r3" := Num 1 ]} ∧
  plain_keys {[ "r2" := Num 3; "r3" := Num 1 ]} ∧
  happensBefore
    (mergeClocks {[ "r1" := Num 1; "r2" := Num 2 ]}
                 {[ "r2" := Num 3; "r3" := Num 1 ]})
    {[ "r1" := Num 1; "r2" := Num 2 ]} = false.
Proof.
  assert (counters {[ "r1" := Num 1; "r2" := Num 2 ]}) as Ha
    by (apply (bool_decide_unpack _); vm_compute; exact I).
  assert (counters {[ "r2" := Num 3; "r3" := Num 1 ]}) as Hb
    by (apply (bool_decide_unpack _); vm_compute; exact I).
  assert (plain_keys {[ "r2" := Num 3; "r3" := Num 1 ]}) as Hpb
    by (apply (bool_decide_unpack _); vm_compute; exact I).
  split_and!; [done..|].
  apply (mergeClocks_upper_bound _ _ Ha Hb Hpb).
Defined.

(** X31. On clocks of counters whose keys are not names of members of
    [Object.prototype], [mergeClocks(a, b)] is the pointwise maximum of [a]
    and [b] over the union of their keys, an absent key counting as [0],
    and it is commutative, associative and idempotent. *)
Theorem mergeClocks_max_on_plain_keys a b c :
  counters a → counters b → counters c →
  plain_keys a → plain_keys b → plain_keys c →
  (∀ k, mergeClocks a b !! k =
          if decide (k ∈ dom a ∪ dom b)
          then Some (Num (entry a k `max` entry b k)) else None) ∧
  mergeClocks a b = mergeClocks b a ∧
  mergeClocks (mergeClocks a b) c = mergeClocks a (mergeClocks b c) ∧
  mergeClocks a a = a.
Proof.
  intros Ha Hb Hc Hpa Hpb Hpc. split_and!.
  - intros k. by apply mergeClocks_counters_lookup.
  - by apply mergeClocks_comm.
  - by apply mergeClocks_assoc.
  - by apply mergeClocks_idemp.
Qed.

Lemma mergeClocks_max_on_plain_keys_witness :
  counters {[ "r1" := Num 1; "r2" := Num 2 ]} ∧
  counters {[ "r2" := Num 3; "r3" := Num 1 ]} ∧
  counters {[ "r1" := Num 4 ]} ∧
  plain_keys {[ "r1" := Num 1; "r2" := Num 2 ]} ∧
  plain_keys {[ "r2" := Num 3; "r3" := Num 1 ]} ∧
  plain_keys {[ "r1" := Num 4 ]} ∧
  mergeClocks {[ "r1" := Num 1; "r2" := Num 2 ]}
              {[ "r2" := Num 3; "r3" := Num 1 ]}
    = mergeClocks {[ "r2" := Num 3; "r3" := Num 1 ]}
                  {[ "r1" := Num 1; "r2" := Num 2 ]}.
Proof.
  assert (counters {[ "r1" := Num 1; "r2" := Num 2 ]}) as Ha
    by (apply (bool_decide_unpack _); vm_compute; exact I).
  assert (counters {[ "r2" := Num 3; "r3" := Num 1 ]}) as Hb
    by (apply (bool_decide_unpack _); vm_compute; exact I).
  assert (counters {[ "r1" := Num 4 ]}) as Hc
    by (apply (bool_decide_unpack _); vm_compute; exact I).
  assert (plain_keys {[ "r1" := Num 1; "r2" := Num 2 ]}) as Hpa
    by (apply (bool_decide_unpack _); vm_compute; exact I).
  assert (plain_keys {[ "r2" := Num 3; "r3" := Num 1 ]}) as Hpb
    by (apply (bool_decide_unpack _); vm_compute; exact I).
  assert (plain_keys {[ "r1" := Num 4 ]}) as Hpc
    by (apply (bool_decide_unpack _); vm_compute; exact I).
  split_and!; [assumption..|].
  destruct (mergeClocks_max_on_plain_keys _ _ _ Ha Hb Hc Hpa Hpb Hpc)
    as (_ & Hcomm & _).
  exact Hcomm.
Defined.

(** * Further properties of [set] and [merge] on versions *)

Lemma entry_insert_eq (c : VectorClock) k n : entry (<[k := Num n]> c) k = n.
Proof. unfold entry. by rewrite lookup_insert_eq. Qed.

Lemma entry_insert_ne (c : VectorClock) k k' x :
  k ≠ k' → entry (<[k := x]> c) k' = entry c k'.
Proof. intros Hne. unfold entry. by rewrite lookup_insert_ne. Qed.

(** One successful [set] on a container with a sound version, whose own
    counter is below [2^53], where [+ 1] is exact. *)
Lemma set_version_step path value c c' :
  sound_version c → entry (version c) (id c) < 2 ^ 53 →
  set path value c = Ok c' →
  ∃ n, 0 ≤ n ∧ version c !! id c = Some (Num n) ∧ id c' = id c ∧
       entry (version c) (id c) = n ∧
       version c' = <[id c := Num (n + 1)]> (version c) ∧
       counters (version c') ∧
       happensBefore (version c) (version c') = true ∧
       happensBefore (version c') (version c) = false.
Proof.
  intros [Hc [n Hn]] Hlt53 Hset.
  pose proof (set_outcome path value c) as Hout.
  rewrite Hset in Hout. destruct Hout as (_ & Hid & Hver & _).
  rewrite (get_property_own _ _ _ Hn) in Hver. simpl in Hver.
  destruct (counters_entry _ _ _ Hc Hn) as [Hnum Hnn].
  assert (entry (version c) (id c) = n) as Hen by (unfold entry; by rewrite Hn).
  rewrite Hen in Hnn, Hlt53.
  rewrite double_succ_exact in Hver by lia.
  assert (counters (version c')) as Hc'.
  { rewrite Hver. apply map_Forall_insert_2; [|done].
    simpl. apply bool_decide_eq_true. lia. }
  assert (dom (version c') = dom (version c)) as Hdom.
  { rewrite Hver, dom_insert_L.
    assert (id c ∈ dom (version c)) by (apply elem_of_dom; by eexists).
    set_solver. }
  exists n. split_and!; [done..| |].
  - apply happensBefore_counters_dom; [done..|by rewrite Hdom|].
    rewrite Hver. split.
    + intros k _. destruct (decide (id c = k)) as [<-|Hne].
      * rewrite entry_insert_eq. lia.
      * by rewrite entry_insert_ne.
    + exists (id c). rewrite lookup_insert_eq, entry_insert_eq.
      split; [by eexists | lia].
  - apply not_true_is_false.
    intros [_ (k & _ & Hlt)]%happensBefore_counters_dom;
      [|done..|by rewrite Hdom].
    rewrite Hver in Hlt. destruct (decide (id c = k)) as [<-|Hne].
    + rewrite entry_insert_eq in Hlt. lia.
    + rewrite entry_insert_ne in Hlt by done. lia.
Qed.

Lemma sound_version_fresh_a : sound_version (createContainer "a").
Proof.
  split; [apply (bool_decide_unpack _); vm_compute; exact I|].
  apply createContainer_own_entry.
Qed.

Lemma own_counter_fresh_a :
  entry (version (createContainer "a")) (id (createContainer "a")) < 2 ^ 53.
Proof. by vm_compute. Qed.

Lemma set_replica_a :
  set ["x"] (JNumber 1) (createContainer "a") = Ok replica_a.
Proof. vm_compute. reflexivity. Qed.

(** X6. Every write moves the clock of the container strictly forward, by
    one step of its own counter: on a container whose clock holds counters,
    its own among them and below [2^53], a successful [set] adds exactly
    one to the container's own counter and leaves the other entries as they
    were; the clock before happens before the clock after, not the other
    way round; and the new clock again holds counters, the container's own
    among them. *)
Theorem set_advances_version path value c c' :
  sound_version c → entry (version c) (id c) < 2 ^ 53 →
  set path value c = Ok c' →
  version c' = <[id c := Num (entry (version c) (id c) + 1)]> (version c) ∧
  happensBefore (version c) (version c') = true ∧
  happensBefore (version c') (version c) = false ∧
  sound_version c'.
Proof.
  intros Hs Hlt53 Hset.
  destruct (set_version_step path value c c' Hs Hlt53 Hset)
    as (n & _ & Hn & Hid & Hen & Hver & Hc' & Hlt & Hgt).
  split_and!; [by rewrite Hen | done..|]. split; [done|].
  exists (n + 1). by rewrite Hid, Hver, lookup_insert_eq.
Qed.

Lemma set_advances_version_witness :
  sound_version (createContainer "a") ∧
  entry (version (createContainer "a")) (id (createContainer "a")) < 2 ^ 53 ∧
  set ["x"] (JNumber 1) (createContainer "a") = Ok replica_a ∧
  happensBefore (version (createContainer "a")) (version replica_a) = true.
Proof.
  split_and!;
    [apply sound_version_fresh_a | apply own_counter_fresh_a
    | apply set_replica_a |].
  apply (set_advances_version ["x"] (JNumber 1) (createContainer "a")
           replica_a sound_version_fresh_a own_counter_fresh_a
           set_replica_a).
Defined.

(** X7. [createContainer] gives a container a sound version (counters, one
    of them its own), and [merge] of two containers with sound versions has
    a sound version again, when no key of the second one's clock names a
    member of [Object.prototype]. *)
Theorem merge_keeps_sound_version a b i :
  sound_version a → sound_version b → plain_keys (version b) →
  sound_version (createContainer i) ∧ sound_version (merge a b).
Proof.
  intros [Ha Hoa] [Hb Hob] Hpb. split.
  - split; [|apply createContainer_own_entry].
    intros k x Hk. simpl in Hk.
    apply lookup_singleton_Some in Hk as [<- <-]. done.
  - split; [|by apply merge_own_entry].
    unfold merge. destruct (decide (id a = id b)).
    + by destruct (happensBefore (version a) (version b)).
    + by apply mergeClocks_counters.
Qed.

Lemma sound_version_a : sound_version replica_a.
Proof.
  split; [apply (bool_decide_unpack _); vm_compute; exact I|].
  by exists 1.
Qed.

Lemma sound_version_b : sound_version replica_b.
Proof.
  split; [apply (bool_decide_unpack _); vm_compute; exact I|].
  by exists 1.
Qed.

Lemma plain_keys_b : plain_keys (version replica_b).
Proof. apply (bool_decide_unpack _); vm_compute; exact I. Qed.

Lemma merge_keeps_sound_version_witness :
  sound_version replica_a ∧ sound_version replica_b ∧
  plain_keys (version replica_b) ∧
  sound_version (merge replica_a replica_b).
Proof.
  split_and!;
    [apply sound_version_a | apply sound_version_b | apply plain_keys_b |].
  apply (merge_keeps_sound_version replica_a replica_b "c"
           sound_version_a sound_version_b plain_keys_b).
Defined.

(** X8. Merging a container with itself returns it unchanged, for every
    container. *)
Theorem merge_idempotent a : merge a a = a.
Proof.
  unfold merge. rewrite decide_True by done.
  by rewrite happensBefore_irrefl.
Qed.

(** X9. The same-id path of [merge] takes the newer state: a container
    with a sound version, whose own counter is below [2^53], merged with
    the one a successful [set] made of it gives the latter, in either
    argument order. *)
Theorem merge_with_successor path value c c' :
  sound_version c → entry (version c) (id c) < 2 ^ 53 →
  set path value c = Ok c' →
  merge c c' = c' ∧ merge c' c = c'.
Proof.
  intros Hs Hlt53 Hset.
  destruct (set_version_step path value c c' Hs Hlt53 Hset)
    as (n & _ & _ & Hid & _ & _ & _ & Hlt & Hgt).
  unfold merge. split; (case_decide; [|congruence]).
  - by rewrite Hlt.
  - by rewrite Hgt.
Qed.

Lemma merge_with_successor_witness :
  sound_version (createContainer "a") ∧
  entry (version (createContainer "a")) (id (createContainer "a")) < 2 ^ 53 ∧
  set ["x"] (JNumber 1) (createContainer "a") = Ok replica_a ∧
  merge (createContainer "a") replica_a = replica_a ∧
  merge replica_a (createContainer "a") = replica_a.
Proof.
  split_and!;
    [apply sound_version_fresh_a | apply own_counter_fresh_a
    | apply set_replica_a | |];
    apply (merge_with_successor ["x"] (JNumber 1) (createContainer "a")
             replica_a sound_version_fresh_a own_counter_fresh_a
             set_replica_a).
Defined.

(** * Further properties of the trees *)

(** ** The marking [isLeaf] *)

Lemma well_marked_value value version l :
  well_marked (ValueNode value version l) ↔ l = true.
Proof.
  split.
  - intros Hw. apply (Hw [] _ eq_refl).
  - intros -> [|k p] n; simpl; [by intros [= <-] | done].
Qed.

Lemma well_marked_branch (ch : gmap string Trie) l :
  well_marked (BranchNode ch l) ↔
  l = false ∧ ∀ k c, ch !! k = Some c → well_marked c.
Proof.
  split.
  - intros Hw. split; [apply (Hw [] _ eq_refl)|].
    intros k c Hk p n Hget. apply (Hw (k :: p)). simpl. by rewrite Hk.
  - intros [-> Hch] [|k p] n; simpl; [by intros [= <-]|].
    destruct (ch !! k) as [c|] eqn:Hk; [|done]. apply (Hch k c Hk).
Qed.

Lemma well_marked_empty : well_marked empty.
Proof.
  apply well_marked_branch. split; [done|]. intros k c.
  by rewrite lookup_empty.
Qed.

Lemma well_marked_setInTrie path value version t t' :
  well_marked t → setInTrie path value version t = Ok t' → well_marked t'.
Proof.
  revert t t'. induction path as [|key rest IH]; intros t t' Hw; simpl.
  - intros [= <-]. by apply well_marked_value.
  - destruct t as [|ch l]; [done|]. unfold bind.
    destruct (setInTrie rest value version (default empty (ch !! key)))
      as [child'|] eqn:Hrec; [|done].
    intros [= <-]. apply well_marked_branch in Hw as [_ Hch].
    apply well_marked_branch. split; [done|]. intros k c.
    destruct (decide (key = k)) as [<-|Hne].
    + rewrite lookup_insert_eq. intros [= <-].
      eapply IH; [|done].
      destruct (ch !! key) as [c|] eqn:Hk; simpl;
        [by eapply Hch | apply well_marked_empty].
    + rewrite lookup_insert_ne by done. apply Hch.
Qed.

Lemma well_marked_mergeTries a b :
  well_marked a → well_marked b → well_marked (mergeTries a b).
Proof.
  revert a. induction b as [vb cb lb|bc lb IH] using Trie_children_ind;
    intros a Ha Hb.
  - destruct a as [va ca la|ac la]; simpl; [|done].
    by destruct (happensBefore ca cb).
  - destruct a as [va ca la|ac la]; [done|].
    rewrite mergeTries_branches.
    apply well_marked_branch in Ha as [_ Ha].
    apply well_marked_branch in Hb as [_ Hb].
    apply well_marked_branch. split; [done|]. intros k c.
    rewrite mergeChildren_lookup.
    destruct (ac !! k) as [x|] eqn:Hx, (bc !! k) as [y|] eqn:Hy;
      intros [= <-]; eauto.
Qed.

Lemma mergeTries_idem t : well_marked t → mergeTries t t = t.
Proof.
  induction t as [v c l|ch l IH] using Trie_children_ind; intros Hw.
  - simpl. by rewrite happensBefore_irrefl.
  - rewrite mergeTries_branches.
    apply well_marked_branch in Hw as [-> Hch]. f_equal.
    apply map_eq. intros k. rewrite mergeChildren_lookup.
    destruct (ch !! k) as [c|] eqn:Hk; [|done].
    f_equal. apply (IH k c Hk). by eapply Hch.
Qed.

Lemma well_marked_replica_a : well_marked (root replica_a).
Proof.
  apply well_marked_branch. split; [done|]. intros k c.
  intros [<- <-]%lookup_singleton_Some. by apply well_marked_value.
Qed.

Lemma well_marked_replica_b : well_marked (root replica_b).
Proof.
  apply well_marked_branch. split; [done|]. intros k c.
  intros [<- <-]%lookup_singleton_Some. by apply well_marked_value.
Qed.

(** X10. A successful [set] keeps the root marked as the tags say
    ([isLeaf] is [true] on value leaves and [false] on branches, at every
    node), as the root of a new container is. *)
Theorem set_keeps_marking path value c c' :
  well_marked (root c) → set path value c = Ok c' →
  well_marked (root c').
Proof.
  intros Hw Hset. unfold set, bind in Hset.
  destruct (setInTrie path value _ (root c)) as [t'|] eqn:Hrec; [|done].
  injection Hset as <-. simpl. by eapply well_marked_setInTrie.
Qed.

Lemma set_keeps_marking_witness :
  well_marked (root (createContainer "a")) ∧
  set ["x"] (JNumber 1) (createContainer "a") = Ok replica_a ∧
  well_marked (root replica_a).
Proof.
  split_and!; [apply well_marked_empty | apply set_replica_a |].
  apply (set_keeps_marking ["x"] (JNumber 1) (createContainer "a") replica_a
           well_marked_empty set_replica_a).
Defined.

(** X11. [merge] keeps the marking: when the roots of both containers are
    marked as the tags say, so is the root of the merged container. *)
Theorem merge_keeps_marking a b :
  well_marked (root a) → well_marked (root b) →
  well_marked (root (merge a b)).
Proof.
  intros Ha Hb. unfold merge. destruct (decide (id a = id b)).
  - by destruct (happensBefore (version a) (version b)).
  - by apply well_marked_mergeTries.
Qed.

Lemma merge_keeps_marking_witness :
  well_marked (root replica_a) ∧ well_marked (root replica_b) ∧
  well_marked (root (merge replica_a replica_b)).
Proof.
  split_and!; [apply well_marked_replica_a | apply well_marked_replica_b |].
  apply (merge_keeps_marking replica_a replica_b
           well_marked_replica_a well_marked_replica_b).
Defined.

(** X12. [mergeTries] is idempotent on the trees the code builds: a tree
    marked as the tags say, merged with itself, is returned as it is. *)
Theorem mergeTries_idempotent t : well_marked t → mergeTries t t = t.
Proof. apply mergeTries_idem. Qed.

Lemma mergeTries_idempotent_witness :
  well_marked (root replica_a) ∧
  mergeTries (root replica_a) (root replica_a) = root replica_a.
Proof.
  split; [apply well_marked_replica_a|].
  apply (mergeTries_idempotent (root replica_a) well_marked_replica_a).
Defined.

(** X13. The empty tree is neutral for [mergeTries] on branches, on either
    side; a value leaf merged with the empty tree as second argument is
    replaced by the empty tree. *)
Theorem mergeTries_empty (ch : gmap string Trie) value version l :
  mergeTries empty (BranchNode ch false) = BranchNode ch false ∧
  mergeTries (BranchNode ch false) empty = BranchNode ch false ∧
  mergeTries (ValueNode value version l) empty = empty.
Proof.
  split_and!; [| |done]; unfold empty; rewrite mergeTries_branches; f_equal;
    apply map_eq; intros k; rewrite mergeChildren_lookup, lookup_empty;
    by destruct (ch !! k).
Qed.

(** ** Paths that a write or a merge leaves alone *)

Lemma get_empty_cons k p : get (k :: p) empty = None.
Proof. simpl. by rewrite lookup_empty. Qed.

Lemma get_setInTrie_diverge r k p' k' q' value version t t' :
  k ≠ k' →
  setInTrie (r ++ k :: p') value version t = Ok t' →
  get (r ++ k' :: q') t' = get (r ++ k' :: q') t.
Proof.
  intros Hne. revert t t'. induction r as [|x r IH]; intros t t' Hset.
  - by eapply get_setInTrie_other.
  - simpl in Hset. destruct t as [|ch l]; [done|]. unfold bind in Hset.
    destruct (setInTrie (r ++ k :: p') value version
                (default empty (ch !! x))) as [child'|] eqn:Hrec; [|done].
    injection Hset as <-. simpl. rewrite lookup_insert_eq.
    rewrite (IH _ _ Hrec).
    destruct (ch !! x) as [c|]; simpl; [done|].
    destruct r; apply get_empty_cons.
Qed.

(** X14. A successful [setInTrie] leaves every path that parts ways with
    the written path as it was: it resolves to the same node as before, or
    does not resolve as before. *)
Theorem setInTrie_other_paths path q value version t t' :
  diverge path q →
  setInTrie path value version t = Ok t' →
  get q t' = get q t.
Proof.
  intros (r & k & k' & p' & q' & -> & -> & Hne) Hset.
  by eapply get_setInTrie_diverge.
Qed.

Lemma diverge_b_c : diverge ["a"; "b"] ["a"; "c"].
Proof. by exists ["a"], "b", "c", [], []. Qed.

Lemma setInTrie_other_paths_witness :
  diverge ["a"; "b"] ["a"; "c"] ∧
  setInTrie ["a"; "b"] JNull ∅ tree_abc
    = Ok (BranchNode
            {[ "a" := BranchNode {[ "b" := ValueNode JNull ∅ true;
                                    "c" := ValueNode (JNumber 2) ∅ true ]}
                        false ]}
            false) ∧
  get ["a"; "c"]
    (BranchNode
       {[ "a" := BranchNode {[ "b" := ValueNode JNull ∅ true;
                               "c" := ValueNode (JNumber 2) ∅ true ]}
                   false ]}
       false)
    = get ["a"; "c"] tree_abc.
Proof.
  assert (setInTrie ["a"; "b"] JNull ∅ tree_abc
    = Ok (BranchNode
            {[ "a" := BranchNode {[ "b" := ValueNode JNull ∅ true;
                                    "c" := ValueNode (JNumber 2) ∅ true ]}
                        false ]}
            false)) as Hset by (vm_compute; reflexivity).
  split_and!; [apply diverge_b_c | done |].
  apply (setInTrie_other_paths ["a"; "b"] ["a"; "c"] JNull ∅ tree_abc _
           diverge_b_c Hset).
Defined.

Lemma get_mergeTries_left p a b x :
  get p a = Some x → absent_at p b → get p (mergeTries a b) = Some x.
Proof.
  intros Hget (p1 & k & p2 & bc & l & -> & Hb & Hk).
  revert a b Hget Hb. induction p1 as [|j p1 IH]; intros a b Hget Hb.
  - simpl in Hb. injection Hb as ->. simpl in Hget.
    destruct a as [|ac la]; [done|].
    destruct (ac !! k) as [c|] eqn:Hc; [|done].
    rewrite mergeTries_branches. simpl.
    by rewrite mergeChildren_lookup, Hc, Hk.
  - simpl in Hb, Hget.
    destruct b as [|bc0 lb]; [done|]. destruct a as [|ac la]; [done|].
    destruct (bc0 !! j) as [bj|] eqn:Hbj; [|done].
    destruct (ac !! j) as [aj|] eqn:Haj; [|done].
    rewrite mergeTries_branches. simpl.
    rewrite mergeChildren_lookup, Haj, Hbj. by apply IH.
Qed.

Lemma get_mergeTries_right p a b x :
  get p b = Some x → absent_at p a → get p (mergeTries a b) = Some x.
Proof.
  intros Hget (p1 & k & p2 & ac & l & -> & Ha & Hk).
  revert a b Hget Ha. induction p1 as [|j p1 IH]; intros a b Hget Ha.
  - simpl in Ha. injection Ha as ->. simpl in Hget.
    destruct b as [|bc lb]; [done|].
    destruct (bc !! k) as [c|] eqn:Hc; [|done].
    rewrite mergeTries_branches. simpl.
    by rewrite mergeChildren_lookup, Hc, Hk.
  - simpl in Ha, Hget.
    destruct a as [|ac0 la]; [done|]. destruct b as [|bc lb]; [done|].
    destruct (ac0 !! j) as [aj|] eqn:Haj; [|done].
    destruct (bc !! j) as [bj|] eqn:Hbj; [|done].
    rewrite mergeTries_branches. simpl.
    rewrite mergeChildren_lookup, Haj, Hbj. by apply IH.
Qed.

(** X15. [mergeTries] does not lose a write the other side has nothing
    against: a path that resolves in one of the two trees, while the walk
    along it in the other tree stops in a branch without the next segment,
    resolves to the same node in the merged tree. *)
Theorem mergeTries_keeps_unshared_paths p a b x :
  (get p a = Some x ∧ absent_at p b) ∨ (get p b = Some x ∧ absent_at p a) →
  get p (mergeTries a b) = Some x.
Proof.
  intros [[Hget Habs]|[Hget Habs]].
  - by apply get_mergeTries_left.
  - by apply get_mergeTries_right.
Qed.

Lemma mergeTries_keeps_unshared_paths_witness :
  get ["x"] branch_x = Some (ValueNode (JNumber 1) {[ "a" := Num 1 ]} true) ∧
  absent_at ["x"] empty ∧
  get ["x"] (mergeTries branch_x empty)
    = Some (ValueNode (JNumber 1) {[ "a" := Num 1 ]} true).
Proof.
  assert (get ["x"] branch_x
          = Some (ValueNode (JNumber 1) {[ "a" := Num 1 ]} true)) as Hget
    by (vm_compute; reflexivity).
  assert (absent_at ["x"] empty) as Habs
    by (by exists [], "x", [], ∅, false).
  split_and!; [done..|].
  apply (mergeTries_keeps_unshared_paths ["x"] branch_x empty _
           (or_introl (conj Hget Habs))).
Defined.

(** X29. No leaf of a merged tree is made up: a value leaf found at a
    path of [mergeTries(a, b)] is the leaf at that path of [a] or of [b],
    with the same payload and the same version. *)
Theorem mergeTries_leaves_from_inputs p a b value version l :
  get p (mergeTries a b) = Some (ValueNode value version l) →
  get p a = Some (ValueNode value version l) ∨
  get p b = Some (ValueNode value version l).
Proof.
  revert a b. induction p as [|k p IH]; intros a b.
  - destruct a as [va ca la|ac la], b as [vb cb lb|bc lb]; simpl; auto.
    + destruct (happensBefore ca cb); auto.
    + done.
  - destruct a as [va ca la|ac la], b as [vb cb lb|bc lb]; auto.
    + simpl. by destruct (happensBefore ca cb).
    + rewrite mergeTries_branches. simpl. rewrite mergeChildren_lookup.
      destruct (ac !! k) as [x|], (bc !! k) as [y|]; auto.
Qed.

Lemma mergeTries_leaves_from_inputs_witness :
  get ["x"] (mergeTries branch_x empty)
    = Some (ValueNode (JNumber 1) {[ "a" := Num 1 ]} true) ∧
  (get ["x"] branch_x = Some (ValueNode (JNumber 1) {[ "a" := Num 1 ]} true) ∨
   get ["x"] empty = Some (ValueNode (JNumber 1) {[ "a" := Num 1 ]} true)).
Proof.
  assert (get ["x"] (mergeTries branch_x empty)
          = Some (ValueNode (JNumber 1) {[ "a" := Num 1 ]} true)) as Hget
    by (vm_compute; reflexivity).
  split; [done|].
  apply (mergeTries_leaves_from_inputs ["x"] branch_x empty _ _ _ Hget).
Defined.

(** X30. A written path is a leaf: after a successful [set] nothing
    resolves below the written path, and every later [set] below it
    throws. After a write at the empty path, in particular, the container
    rejects every other write. *)
Theorem set_closes_path path value c c' k q value' :
  set path value c = Ok c' →
  get (path ++ k :: q) (root c') = None ∧
  set (path ++ k :: q) value' c' = Throw "Cannot set path on value node".
Proof.
  intros Hset. pose proof (set_outcome path value c) as Hout.
  rewrite Hset in Hout. destruct Hout as (_ & _ & _ & Hget).
  split; [by rewrite get_app, Hget|].
  pose proof (set_outcome (path ++ k :: q) value' c') as Hout.
  destruct (set (path ++ k :: q) value' c') as [c''|m].
  - destruct Hout as [Hno _]. destruct Hno.
    by exists path, (k :: q), value, (version c'), true.
  - by destruct Hout as [-> _].
Qed.

Lemma set_closes_path_witness :
  set ["x"] (JNumber 1) (createContainer "a") = Ok replica_a ∧
  get ["x"; "y"] (root replica_a) = None ∧
  set ["x"; "y"] JNull replica_a = Throw "Cannot set path on value node".
Proof.
  split; [apply set_replica_a|].
  apply (set_closes_path ["x"] (JNumber 1) (createContainer "a") replica_a
           "y" [] JNull set_replica_a).
Defined.

(** ** [toValue] *)

Lemma toValue_node_branch (ch : gmap string Trie) l :
  toValue_node (BranchNode ch l) =
    let result :=
      delete "__proto__"
        (omap (λ child, defined (toValue_node child)) ch) in
    if decide (result = ∅) then JUndefined else JObject result.
Proof.
  simpl.
  rewrite (omap_ext _ (λ child, defined (toValue_node child)) ch); [done|].
  intros k child _. by destruct (toValue_node child).
Qed.

Lemma defined_Some v w : defined v = Some w ↔ w = v ∧ v ≠ JUndefined.
Proof. destruct v; simpl; naive_solver. Qed.

Lemma defined_None v : defined v = None ↔ v = JUndefined.
Proof. by destruct v. Qed.

Lemma defined_id v : v ≠ JUndefined → defined v = Some v.
Proof. intros Hv. by apply defined_Some. Qed.

Lemma nest_defined path value :
  value ≠ JUndefined → nest path value ≠ JUndefined.
Proof. by destruct path. Qed.

Lemma toValue_setInTrie_empty path value version :
  "__proto__" ∉ path → value ≠ JUndefined →
  ∃ t', setInTrie path value version empty = Ok t' ∧
        toValue_node t' = nest path value.
Proof.
  intros Hp Hv. induction path as [|key rest IH]; simpl.
  - by eexists.
  - apply not_elem_of_cons in Hp as [Hkey Hrest].
    destruct (IH Hrest) as (child' & Hset & Hval).
    rewrite lookup_empty. simpl. rewrite Hset. simpl. eexists. split; [done|].
    rewrite toValue_node_branch, insert_empty, omap_singleton_Some
      with (y := nest rest value).
    + simpl. rewrite delete_singleton_ne by done.
      rewrite decide_False; [done|]. apply map_non_empty_singleton.
    + rewrite Hval. by apply defined_id, nest_defined.
Qed.

(** X16. Round trip on an empty tree: [setInTrie] never throws there, and
    for a path without a segment [__proto__], [toValue] of the result is
    the payload wrapped in one record per segment of the path,
    [{k1: {k2: ... value}}], for every payload other than [undefined]. *)
Theorem toValue_set_on_empty path value version :
  "__proto__" ∉ path → value ≠ JUndefined →
  ∃ t', setInTrie path value version empty = Ok t' ∧
        toValue_node t' = nest path value ∧
        toValue (get path t') = value.
Proof.
  intros Hp Hv.
  destruct (toValue_setInTrie_empty path value version Hp Hv)
    as (t' & Hset & Hval).
  exists t'. split_and!; [done..|].
  by rewrite (get_setInTrie _ _ _ _ _ Hset).
Qed.

Lemma toValue_set_on_empty_witness :
  ("__proto__" ∉ ["a"; "b"; "c"]) ∧
  JNumber 42 ≠ JUndefined ∧
  ∃ t', setInTrie ["a"; "b"; "c"] (JNumber 42) ∅ empty = Ok t' ∧
        toValue_node t'
          = JObject {[ "a" := JObject {[ "b" :=
                       JObject {[ "c" := JNumber 42 ]} ]} ]}.
Proof.
  assert ("__proto__" ∉ ["a"; "b"; "c"]) as Hp
    by (apply (bool_decide_unpack _); vm_compute; exact I).
  assert (JNumber 42 ≠ JUndefined) as Hv by discriminate.
  split_and!; [done..|].
  destruct (toValue_set_on_empty ["a"; "b"; "c"] (JNumber 42) ∅ Hp Hv)
    as (t' & Hset & Hval & _).
  by exists t'.
Defined.

(** X17. [toValue] of a tree is [undefined] exactly when no path without
    a segment [__proto__] resolves to a leaf that holds a payload other
    than [undefined]: branches without such a leaf below them never show
    up as empty records, and what lies below a segment [__proto__] makes
    no field. *)
Theorem toValue_defined_iff t :
  toValue_node t ≠ JUndefined ↔
  ∃ p value version l,
    ("__proto__" ∉ p) ∧
    get p t = Some (ValueNode value version l) ∧ value ≠ JUndefined.
Proof.
  induction t as [v c l|ch l IH] using Trie_children_ind.
  - simpl. split.
    + intros Hv. exists [], v, c, l. split_and!; [|done..].
      apply not_elem_of_nil.
    + intros ([|k p] & v' & c' & l' & _ & Hget & Hv); simpl in Hget; [|done].
      by injection Hget as -> -> ->.
  - rewrite toValue_node_branch. simpl. split.
    + case_decide as Hres; [done|]. intros _.
      apply map_choose in Hres as (k & w & Hk).
      apply lookup_delete_Some in Hk as [Hne Hk].
      rewrite lookup_omap in Hk.
      destruct (ch !! k) as [child|] eqn:Hch; [|done]. simpl in Hk.
      apply defined_Some in Hk as [_ Hdef].
      apply (IH k child Hch) in Hdef as (p & v & c & l' & Hp & Hget & Hv).
      exists (k :: p), v, c, l'. simpl. rewrite Hch. split_and!; [|done..].
      apply not_elem_of_cons. by split.
    + intros ([|k p] & v & c & l' & Hp & Hget & Hv); simpl in Hget; [done|].
      apply not_elem_of_cons in Hp as [Hne Hp].
      destruct (ch !! k) as [child|] eqn:Hch; [|done].
      assert (toValue_node child ≠ JUndefined) as Hdef.
      { apply (IH k child Hch). by exists p, v, c, l'. }
      rewrite decide_False; [done|]. intros Hempty.
      apply (f_equal (.!! k)) in Hempty.
      rewrite lookup_delete_ne, lookup_omap, Hch, lookup_empty in Hempty
        by done.
      simpl in Hempty. by rewrite (defined_id _ Hdef) in Hempty.
Qed.

(** * Further properties of the store *)

Lemma h_setInTrie_extends path value version :
  ∀ h (σ : store) r σ',
    h_setInTrie path value version h σ = (r, σ') → σ ⊆ σ'.
Proof.
  induction path as [|key rest IH]; intros h σ r σ' Hrun; simpl in Hrun.
  - by injection Hrun as _ <-.
  - destruct h as [|l0 lf]; [by injection Hrun as _ <-|].
    assert (σ !! fresh (dom σ) = None) as Hfresh
      by apply not_elem_of_dom, is_fresh.
    set (σ1 := <[fresh (dom σ) := Map_entries σ l0]> σ) in *.
    assert (σ ⊆ σ1) as H01 by (by apply insert_subseteq).
    destruct (match Map_get σ1 (fresh (dom σ)) key with
              | Some child => (child, σ1)
              | None => h_empty σ1
              end) as [child σ2] eqn:Hsel.
    assert (σ1 ⊆ σ2) as H12.
    { destruct (Map_get σ1 (fresh (dom σ)) key).
      - by injection Hsel as _ <-.
      - unfold h_empty, new_Map in Hsel. injection Hsel as _ <-.
        apply insert_subseteq, not_elem_of_dom, is_fresh. }
    destruct (h_setInTrie rest value version child σ2) as [r3 σ3] eqn:Hrec.
    apply IH in Hrec.
    destruct r3 as [child'|m]; injection Hrun as _ <-.
    + unfold Map_set. apply insert_subseteq_r; [done|].
      do 2 (etrans; [done|]). done.
    + do 2 (etrans; [done|]). done.
Qed.

(** X19. Structural sharing: a successful [setInTrie] below a branch
    returns a branch with a new [Map] of its own, in which every entry
    other than the written segment is the node the old map holds there
    (for a branch, with the same [children] map, not a copy of it), and no
    map of the store it started from is written to. *)
Theorem h_setInTrie_shares_siblings key rest value version l0 lf
    (σ : store) h' σ' :
  h_setInTrie (key :: rest) value version (HBranch l0 lf) σ = (Ok h', σ') →
  ∃ l1,
    h' = HBranch l1 false ∧ σ !! l1 = None ∧
    (∀ k, k ≠ key → Map_get σ' l1 k = Map_get σ l0 k) ∧
    σ ⊆ σ'.
Proof.
  intros Hrun. pose proof (h_setInTrie_extends _ _ _ _ _ _ _ Hrun) as Hsub.
  simpl in Hrun.
  assert (σ !! fresh (dom σ) = None) as Hfresh
    by apply not_elem_of_dom, is_fresh.
  set (σ1 := <[fresh (dom σ) := Map_entries σ l0]> σ) in *.
  assert (σ1 !! fresh (dom σ) = Some (Map_entries σ l0)) as Hc1
    by apply lookup_insert_eq.
  destruct (match Map_get σ1 (fresh (dom σ)) key with
            | Some child => (child, σ1)
            | None => h_empty σ1
            end) as [child σ2] eqn:Hsel.
  assert (σ1 ⊆ σ2) as H12.
  { destruct (Map_get σ1 (fresh (dom σ)) key).
    - by injection Hsel as _ <-.
    - unfold h_empty, new_Map in Hsel. injection Hsel as _ <-.
      apply insert_subseteq, not_elem_of_dom, is_fresh. }
  destruct (h_setInTrie rest value version child σ2) as [r3 σ3] eqn:Hrec.
  apply h_setInTrie_extends in Hrec.
  destruct r3 as [child'|m]; [|done]. injection Hrun as <- <-.
  exists (fresh (dom σ)). split_and!; [done..| |done].
  intros k Hk. unfold Map_get at 1, Map_set, Map_entries at 1.
  rewrite lookup_insert_eq. simpl. rewrite lookup_insert_ne by done.
  unfold Map_entries at 1.
  rewrite (lookup_weaken σ1 σ3 _ _ Hc1); [done|]. by etrans.
Qed.

Lemma h_setInTrie_shares_siblings_witness :
  ∃ h' σ',
    h_setInTrie ["x"] (JNumber 1) ∅ (HBranch 0%nat false) store_a
      = (Ok h', σ') ∧
    store_a ⊆ σ'.
Proof.
  eexists _, _.
  assert (h_setInTrie ["x"] (JNumber 1) ∅ (HBranch 0%nat false) store_a = _)
    as Hrun by (vm_compute; reflexivity).
  split; [exact Hrun|].
  destruct (h_setInTrie_shares_siblings _ _ _ _ _ _ _ _ _ Hrun)
    as (l1 & _ & _ & _ & Hsub).
  exact Hsub.
Defined.

(** * Properties of [PersistentArray] *)

Lemma gmap_trie_laws : TrieLaws (gmap (list string)).
Proof.
  split; intros T k; simpl.
  - apply lookup_empty.
  - intros v t. apply lookup_insert_eq.
  - intros k' v t Hne. apply lookup_insert_ne. congruence.
Qed.

Section array.
Context {Tr : Type → Type} `{!TrieClass Tr} `{!TrieLaws Tr}.
Context {T : Type}.
Implicit Types (a : @PersistentArray.t Tr T) (index i j : Z) (value : T).

Import PersistentArray.

Lemma length_toArray a : length (toArray a) = Z.to_nat (_size a).
Proof. unfold toArray. by rewrite length_fmap, length_seqZ. Qed.

Lemma toArray_lookup_lt a (n : nat) :
  Z.of_nat n < _size a → toArray a !! n = Some (get (Z.of_nat n) a).
Proof.
  intros Hn. unfold toArray.
  by rewrite list_lookup_fmap, lookup_seqZ_lt.
Qed.

Lemma toArray_lookup_ge a (n : nat) :
  _size a ≤ Z.of_nat n → toArray a !! n = None.
Proof. intros Hn. apply lookup_ge_None. rewrite length_toArray. lia. Qed.

Lemma get_in_bounds a i :
  0 ≤ i < _size a → get i a = Trie_get [pretty i] (trie a).
Proof. intros Hi. unfold get. rewrite decide_False; [done | lia]. Qed.

Lemma get_out_of_bounds a i : i < 0 ∨ _size a ≤ i → get i a = None.
Proof. intros Hi. unfold get. by rewrite decide_True. Qed.

Lemma pretty_index_ne i j : i ≠ j → pretty i ≠ pretty j.
Proof. intros Hne Heq. by apply Hne, (inj pretty). Qed.

Lemma clean_empty : clean (empty : t T).
Proof. split; [done|]. intros i _. apply Trie_get_new. Qed.

Lemma clean_write a index value :
  clean a → 0 ≤ index →
  clean (mk (Trie_set [pretty index] value (trie a))
            (_size a `max` (index + 1))).
Proof.
  intros [Hsize Hclean] Hindex. split; simpl; [lia|]. intros i Hi.
  rewrite Trie_get_set_ne by (apply pretty_index_ne; lia).
  apply Hclean. lia.
Qed.

Lemma toArray_write a index value :
  clean a → 0 ≤ index →
  toArray (mk (Trie_set [pretty index] value (trie a))
              (_size a `max` (index + 1)))
  = <[Z.to_nat index := Some value]>
      (toArray a ++ replicate (Z.to_nat (index + 1 - _size a)) None).
Proof.
  intros [Hsize Hclean] Hindex. apply list_eq. intros n.
  set (a' := mk (Trie_set [pretty index] value (trie a))
                (_size a `max` (index + 1))).
  destruct (decide (Z.of_nat n < _size a')) as [Hn|Hn].
  - rewrite toArray_lookup_lt by done.
    rewrite get_in_bounds by lia. simpl.
    destruct (decide (n = Z.to_nat index)) as [->|Hne].
    + rewrite list_lookup_insert_eq.
      * rewrite Z2Nat.id by done. by rewrite Trie_get_set.
      * rewrite length_app, length_toArray, length_replicate. lia.
    + rewrite list_lookup_insert_ne by done.
      rewrite Trie_get_set_ne by (apply pretty_index_ne; lia).
      destruct (decide (Z.of_nat n < _size a)) as [Hin|Hout].
      * rewrite lookup_app_l by (rewrite length_toArray; lia).
        rewrite toArray_lookup_lt by done.
        by rewrite get_in_bounds by lia.
      * rewrite lookup_app_r by (rewrite length_toArray; lia).
        rewrite lookup_replicate_2.
        -- by rewrite Hclean by lia.
        -- rewrite length_toArray. simpl in Hn. lia.
  - rewrite toArray_lookup_ge by lia. symmetry.
    apply lookup_ge_None.
    rewrite length_insert, length_app, length_toArray, length_replicate.
    simpl in Hn. lia.
Qed.

Lemma toArray_write_end a value :
  clean a →
  toArray (mk (Trie_set [pretty (_size a)] value (trie a))
              (_size a `max` (_size a + 1)))
  = toArray a ++ [Some value].
Proof.
  intros Hclean. pose proof Hclean as [Hsize _].
  rewrite toArray_write by done.
  replace (Z.to_nat (_size a + 1 - _size a)) with 1%nat by lia.
  rewrite insert_app_r_alt by (rewrite length_toArray; lia).
  rewrite length_toArray. by replace (_ - _)%nat with 0%nat by lia.
Qed.

Lemma from_loop_spec (items : list T) a :
  clean a →
  clean (from_loop items a) ∧
  toArray (from_loop items a) = toArray a ++ (Some <$> items).
Proof.
  revert a. induction items as [|item items IH]; intros a Hclean; simpl.
  - by rewrite app_nil_r.
  - pose proof Hclean as [Hsize _].
    replace (_size a + 1) with (_size a `max` (_size a + 1)) by lia.
    destruct (IH _ (clean_write a (_size a) item Hclean Hsize))
      as [Hc Harr].
    split; [done|].
    by rewrite Harr, toArray_write_end, <- app_assoc.
Qed.

Lemma write_at_size a index value :
  clean a → index = _size a →
  ∃ a', set index value a = Ok a' ∧ clean a' ∧
        _size a' = index + 1 ∧
        toArray a' = toArray a ++ [Some value].
Proof.
  intros Hclean ->. pose proof Hclean as [Hsize _].
  unfold set. rewrite decide_False by lia.
  eexists. split; [done|]. split_and!.
  - by apply clean_write.
  - simpl. lia.
  - by apply toArray_write_end.
Qed.

Lemma clean_size a :
  clean a → _size a = Z.of_nat (length (toArray a)).
Proof. intros [Hsize _]. rewrite length_toArray. lia. Qed.

Lemma from_dense (items : list T) :
  clean (from items) ∧ toArray (from items) = Some <$> items.
Proof. apply (from_loop_spec items _ clean_empty). Qed.

(** X20. Round trip of [from] and [toArray]: the array made from a
    list of items has the size of the list, and [toArray] gives the
    items back in order, with no hole. *)
Theorem from_toArray (items : list T) :
  toArray (from items) = Some <$> items ∧
  size (from items) = Z.of_nat (length items) ∧
  clean (from items).
Proof.
  destruct (from_loop_spec items _ clean_empty) as [Hc Harr].
  assert (toArray (from items) = Some <$> items) as Hres by done.
  split_and!; [done| |done].
  unfold size. rewrite (clean_size (from items) Hc). by rewrite Hres, length_fmap.
Qed.

(** X21. [get] on the array made from a list: the item at an index
    inside the list, [undefined] at a negative index and beyond the
    end. *)
Theorem from_get (items : list T) i :
  get i (from items)
  = if decide (0 ≤ i) then items !! Z.to_nat i else None.
Proof.
  destruct (from_toArray items) as (Harr & Hsize & _). unfold size in Hsize.
  case_decide as Hi; [|apply get_out_of_bounds; lia].
  destruct (decide (i < _size (from items))) as [Hlt|Hge].
  - pose proof (toArray_lookup_lt (from items) (Z.to_nat i)) as Hl.
    rewrite Z2Nat.id in Hl by done. specialize (Hl Hlt).
    rewrite Harr, list_lookup_fmap in Hl.
    destruct (items !! Z.to_nat i); simpl in Hl; [by injection Hl | done].
  - rewrite get_out_of_bounds by lia. symmetry.
    apply lookup_ge_None. lia.
Qed.

(** X22. On an index below [2^53], where [index + 1] is exact, [set]
    throws "Index out of bounds" exactly when the index is negative. On
    any other index it returns an array whose size is the larger of the
    old size and the index plus one, that holds the value at the index
    and, at every other index inside the old size, what the old array
    held. *)
Theorem set_outcome_array index value a :
  index < 2 ^ 53 →
  match set index value a with
  | Throw m => index < 0 ∧ m = "Index out of bounds"
  | Ok a' =>
      0 ≤ index ∧
      size a' = size a `max` (index + 1) ∧
      get index a' = Some value ∧
      ∀ j, j ≠ index → 0 ≤ j < size a → get j a' = get j a
  end.
Proof.
  intros _. unfold set. case_decide as Hi; [done|].
  split_and!; [lia | done | |].
  - rewrite get_in_bounds by (simpl; lia). simpl. apply Trie_get_set.
  - intros j Hne Hj. unfold size in Hj.
    rewrite !get_in_bounds by (simpl; lia). simpl.
    apply Trie_get_set_ne. by apply pretty_index_ne.
Qed.

(** X23. [set] on a clean array, in terms of [toArray], for sizes below
    [2^32], those [new Array(size)] accepts: the old entries, extended with
    holes up to the index when the index is beyond the old size, with the
    value written at the index; the result is clean again. *)
Theorem set_toArray index value a :
  clean a → 0 ≤ index → size a < 2 ^ 32 → index + 1 < 2 ^ 32 →
  ∃ a', set index value a = Ok a' ∧ clean a' ∧ size a' < 2 ^ 32 ∧
        toArray a'
        = <[Z.to_nat index := Some value]>
            (toArray a ++ replicate (Z.to_nat (index + 1 - size a)) None).
Proof.
  intros Hclean Hindex Hsize Hbound. unfold set.
  rewrite decide_False by lia.
  eexists. split; [done|].
  split_and!; [by apply clean_write | | by apply toArray_write].
  unfold size in *. simpl. lia.
Qed.

(** X24. [append] on a clean array of a size below [2^32 - 1], so that
    [new Array(size)] accepts the new size, does not throw: it returns a
    clean array one longer, with the value after the old entries. *)
Theorem append_toArray value a :
  clean a → size a + 1 < 2 ^ 32 →
  ∃ a', append value a = Ok a' ∧ clean a' ∧
        size a' = size a + 1 ∧
        toArray a' = toArray a ++ [Some value].
Proof.
  intros Hclean _.
  destruct (write_at_size a (_size a) value Hclean eq_refl)
    as (a' & Hset & Hc & Hsz & Harr).
  by exists a'.
Qed.

Lemma dense_size a (items : list T) :
  clean a → toArray a = Some <$> items →
  _size a = Z.of_nat (length items).
Proof.
  intros Hclean Harr. by rewrite (clean_size a Hclean), Harr, length_fmap.
Qed.

Lemma dense_get a (items : list T) (n : nat) x :
  clean a → toArray a = Some <$> items → items !! n = Some x →
  get (Z.of_nat n) a = Some x.
Proof.
  intros Hclean Harr Hx.
  pose proof (dense_size a items Hclean Harr) as Hsize.
  apply lookup_lt_Some in Hx as Hn.
  pose proof (toArray_lookup_lt a n) as Hl.
  rewrite Harr, list_lookup_fmap, Hx in Hl. simpl in Hl.
  assert (Z.of_nat n < _size a) as Hlt by lia.
  specialize (Hl Hlt). by injection Hl.
Qed.
End array.

Section array_loops.
Context {Tr : Type → Type} `{!TrieClass Tr} `{!TrieLaws Tr}.
Context {T U : Type}.
Implicit Types (a : @PersistentArray.t Tr T) (items : list T).

Import PersistentArray.

Lemma map_prefix (fn : T → Z → U) a items (n : nat) :
  clean a → toArray a = Some <$> items → (n ≤ length items)%nat →
  ∃ r : t U,
    foldl (λ acc i,
             let* result := acc in
             match get i a with
             | Some value => set i (fn value i) result
             | None => Ok result
             end)
          (Ok empty) (seqZ 0 (Z.of_nat n)) = Ok r ∧
    clean r ∧
    toArray r
    = Some <$> imap (λ i x, fn x (Z.of_nat i)) (take n items).
Proof.
  intros Hclean Harr. induction n as [|n IH]; intros Hn.
  - exists empty. split_and!; [done | apply clean_empty | done].
  - destruct IH as (r & Hfold & Hr & Hres); [lia|].
    destruct (lookup_lt_is_Some_2 items n) as [x Hx]; [lia|].
    rewrite seqZ_S, foldl_app, Hfold, Z.add_0_l. simpl.
    rewrite (dense_get a items n x) by done.
    assert (Z.of_nat n = _size r) as Hsz.
    { rewrite (clean_size r Hr), Hres, length_fmap, length_imap.
      rewrite length_take_le by lia. done. }
    destruct (write_at_size r (Z.of_nat n) (fn x (Z.of_nat n)) Hr Hsz)
      as (r' & -> & Hr' & _ & Hres').
    exists r'. split_and!; [done..|].
    rewrite Hres', Hres, (take_S_r items n x Hx), imap_app, fmap_app.
    simpl. rewrite length_take_le by lia.
    by rewrite Nat.add_0_r.
Qed.

(** X25. [map] on a clean array without holes never throws: it returns
    a clean array of the same size that holds, at every index, the
    function applied to the item there and to the index. *)
Theorem map_toArray (fn : T → Z → U) a items :
  clean a → toArray a = Some <$> items →
  ∃ r : t U,
    map fn a = Ok r ∧ clean r ∧
    toArray r = Some <$> imap (λ i x, fn x (Z.of_nat i)) items.
Proof.
  intros Hclean Harr. unfold map.
  rewrite (dense_size a items Hclean Harr).
  destruct (map_prefix fn a items (length items) Hclean Harr)
    as (r & Hfold & Hr & Hres); [done|].
  exists r. by rewrite take_ge in Hres.
Qed.

Lemma reduce_prefix (fn : U → T → Z → U) initial a items (n : nat) :
  clean a → toArray a = Some <$> items → (n ≤ length items)%nat →
  foldl (λ result i,
           match get i a with
           | Some value => fn result value i
           | None => result
           end)
        initial (seqZ 0 (Z.of_nat n))
  = foldl (λ result ix, fn result ix.2 ix.1) initial
          (indexed (take n items)).
Proof.
  intros Hclean Harr. induction n as [|n IH]; intros Hn; [done|].
  destruct (lookup_lt_is_Some_2 items n) as [x Hx]; [lia|].
  rewrite seqZ_S, foldl_app, IH, Z.add_0_l by lia. simpl.
  rewrite (dense_get a items n x) by done.
  unfold indexed. rewrite (take_S_r items n x Hx), imap_app, foldl_app.
  simpl. rewrite length_take_le by lia. by rewrite Nat.add_0_r.
Qed.

(** X26. [reduce] on a clean array without holes folds the function
    over the items from left to right, each with its index, starting
    from the initial value. *)
Theorem reduce_foldl (fn : U → T → Z → U) initial a items :
  clean a → toArray a = Some <$> items →
  reduce fn initial a
  = foldl (λ result ix, fn result ix.2 ix.1) initial (indexed items).
Proof.
  intros Hclean Harr. unfold reduce.
  rewrite (dense_size a items Hclean Harr).
  rewrite (reduce_prefix fn initial a items (length items)) by done.
  by rewrite take_ge.
Qed.

Lemma kept_snoc (predicate : T → Z → bool) items (n : nat) x :
  items !! n = Some x →
  kept predicate (take (S n) items)
  = kept predicate (take n items)
    ++ (if predicate x (Z.of_nat n) then [x] else []).
Proof.
  intros Hx. apply lookup_lt_Some in Hx as Hn. unfold kept.
  rewrite (take_S_r items n x Hx), imap_app, concat_app. simpl.
  rewrite length_take_le by lia. by rewrite Nat.add_0_r, app_nil_r.
Qed.

Lemma filter_prefix (predicate : T → Z → bool) a items (n : nat) :
  clean a → toArray a = Some <$> items → (n ≤ length items)%nat →
  ∃ r : t T,
    foldl (λ acc i,
             let* st := acc in
             match get i a with
             | Some value =>
                 if predicate value i then
                   let* result := set st.2 value st.1 in
                   Ok (result, st.2 + 1)
                 else Ok st
             | None => Ok st
             end)
          (Ok (empty, 0)) (seqZ 0 (Z.of_nat n))
    = Ok (r, Z.of_nat (length (kept predicate (take n items)))) ∧
    clean r ∧
    toArray r = Some <$> kept predicate (take n items).
Proof.
  intros Hclean Harr. induction n as [|n IH]; intros Hn.
  - exists empty. split_and!; [done | apply clean_empty | done].
  - destruct IH as (r & Hfold & Hr & Hres); [lia|].
    destruct (lookup_lt_is_Some_2 items n) as [x Hx]; [lia|].
    rewrite seqZ_S, foldl_app, Hfold, Z.add_0_l. simpl.
    rewrite (dense_get a items n x) by done.
    rewrite (kept_snoc predicate items n x Hx).
    destruct (predicate x (Z.of_nat n)).
    + assert (Z.of_nat (length (kept predicate (take n items))) = _size r)
        as Hsz by (by rewrite (clean_size r Hr), Hres, length_fmap).
      destruct (write_at_size r _ x Hr Hsz) as (r' & -> & Hr' & _ & Hres').
      exists r'. simpl. split_and!; [|done|].
      * rewrite length_app. simpl. do 2 f_equal. lia.
      * by rewrite Hres', Hres, fmap_app.
    + exists r. by rewrite app_nil_r.
Qed.

(** X27. [filter] on a clean array without holes never throws: it
    returns a clean array without holes that holds, in their order, the
    items that satisfy the predicate at their index. *)
Theorem filter_toArray (predicate : T → Z → bool) a items :
  clean a → toArray a = Some <$> items →
  ∃ r : t T,
    filter predicate a = Ok r ∧ clean r ∧
    toArray r = Some <$> kept predicate items.
Proof.
  intros Hclean Harr. unfold filter.
  rewrite (dense_size a items Hclean Harr).
  destruct (filter_prefix predicate a items (length items) Hclean Harr)
    as (r & -> & Hr & Hres); [done|].
  exists r. by rewrite take_ge in Hres.
Qed.

Lemma slice_prefix a items (s : Z) (n : nat) :
  clean a → toArray a = Some <$> items →
  0 ≤ s → (Z.to_nat s + n ≤ length items)%nat →
  ∃ r : t T,
    foldl (λ acc i,
             let* result := acc in
             match get i a with
             | Some value => set (i - s) value result
             | None => Ok result
             end)
          (Ok empty) (seqZ s (Z.of_nat n)) = Ok r ∧
    clean r ∧
    toArray r = Some <$> take n (drop (Z.to_nat s) items).
Proof.
  intros Hclean Harr Hs. induction n as [|n IH]; intros Hn.
  - exists empty. split_and!; [done | apply clean_empty | done].
  - destruct IH as (r & Hfold & Hr & Hres); [lia|].
    destruct (lookup_lt_is_Some_2 items (Z.to_nat s + n)) as [x Hx]; [lia|].
    assert (get (s + Z.of_nat n) a = Some x) as Hget.
    { replace (s + Z.of_nat n) with (Z.of_nat (Z.to_nat s + n)) by lia.
      by apply (dense_get a items). }
    rewrite seqZ_S, foldl_app, Hfold. simpl. rewrite Hget.
    assert (s + Z.of_nat n - s = _size r) as Hsz.
    { rewrite (clean_size r Hr), Hres, length_fmap.
      rewrite length_take_le by (rewrite length_drop; lia). lia. }
    destruct (write_at_size r _ x Hr Hsz) as (r' & -> & Hr' & _ & Hres').
    exists r'. split_and!; [done..|].
    rewrite Hres', Hres, (take_S_r _ n x), fmap_app; [done|].
    by rewrite lookup_drop.
Qed.

(** X28. [slice] on a clean array without holes never throws: with
    [start] raised to [0] and [end] lowered to the size (each at its
    default when left out), it returns a clean array without holes that
    holds the items from [start] up to, not including, [end], and no
    item when [end] is not beyond [start]. *)
Theorem slice_toArray (start end_ : option Z) a items :
  clean a → toArray a = Some <$> items →
  ∃ r : t T,
    slice start end_ a = Ok r ∧ clean r ∧
    toArray r
    = Some <$>
      take (Z.to_nat (size a `min` default (size a) end_
                      - 0 `max` default 0 start))
           (drop (Z.to_nat (0 `max` default 0 start)) items).
Proof.
  intros Hclean Harr. unfold slice, size.
  pose proof (dense_size a items Hclean Harr) as Hsize.
  set (s := 0 `max` default 0 start).
  set (e := _size a `min` default (_size a) end_).
  assert (0 ≤ s) as Hs by (unfold s; lia).
  assert (e ≤ _size a) as He by (unfold e; lia).
  clearbody s e.
  destruct (decide (e - s ≤ 0)) as [Hle|Hgt].
  - rewrite seqZ_nil by done. exists empty.
    split_and!; [done | apply clean_empty |].
    by replace (Z.to_nat (e - s)) with 0%nat by lia.
  - destruct (slice_prefix a items s (Z.to_nat (e - s)) Hclean Harr)
      as (r & Hfold & Hr & Hres); [lia | lia |].
    exists r. split_and!; [|done..].
    by rewrite Z2Nat.id in Hfold by lia.
Qed.
End array_loops.

(** The properties of the array hold for the class of finite maps from
    paths, on the array of [10, 20, 30]. *)

Lemma clean_array_123 : clean array_123.
Proof. apply (from_dense (TrieLaws0 := gmap_trie_laws)). Qed.

Lemma dense_array_123 :
  PersistentArray.toArray array_123 = Some <$> [10; 20; 30].
Proof. apply (from_dense (TrieLaws0 := gmap_trie_laws)). Qed.

Lemma from_toArray_witness :
  TrieLaws (gmap (list string)) ∧
  PersistentArray.toArray array_123 = [Some 10; Some 20; Some 30].
Proof.
  split; [apply gmap_trie_laws|].
  apply (from_toArray (TrieLaws0 := gmap_trie_laws) [10; 20; 30]).
Defined.

Lemma from_get_witness :
  TrieLaws (gmap (list string)) ∧
  PersistentArray.get 1 array_123 = Some 20 ∧
  PersistentArray.get 3 array_123 = None.
Proof.
  split_and!; [apply gmap_trie_laws|..].
  - apply (from_get (TrieLaws0 := gmap_trie_laws) [10; 20; 30] 1).
  - apply (from_get (TrieLaws0 := gmap_trie_laws) [10; 20; 30] 3).
Defined.

Lemma set_outcome_array_witness :
  TrieLaws (gmap (list string)) ∧ 4 < 2 ^ 53 ∧
  match PersistentArray.set 4 42 array_123 with
  | Throw m => False
  | Ok a' =>
      PersistentArray.size a' = 5 ∧ PersistentArray.get 4 a' = Some 42
  end.
Proof.
  assert (4 < 2 ^ 53) as Hindex by lia.
  split_and!; [apply gmap_trie_laws | done |].
  pose proof (set_outcome_array (TrieLaws0 := gmap_trie_laws)
                4 42 array_123 Hindex) as Hout.
  destruct (PersistentArray.set 4 42 array_123) as [a'|m]; [|lia].
  destruct Hout as (_ & Hsize & Hget & _). split; [|done].
  rewrite Hsize. by vm_compute.
Defined.

Lemma set_toArray_witness :
  TrieLaws (gmap (list string)) ∧ clean array_123 ∧ 0 ≤ 4 ∧
  PersistentArray.size array_123 < 2 ^ 32 ∧ 4 + 1 < 2 ^ 32 ∧
  ∃ a', PersistentArray.set 4 42 array_123 = Ok a' ∧
        PersistentArray.toArray a'
        = [Some 10; Some 20; Some 30; None; Some 42].
Proof.
  assert (PersistentArray.size array_123 < 2 ^ 32) as Hsize
    by (by vm_compute).
  split_and!;
    [apply gmap_trie_laws | apply clean_array_123 | lia | done | lia |].
  destruct (set_toArray (TrieLaws0 := gmap_trie_laws) 4 42 array_123
              clean_array_123 ltac:(lia) Hsize ltac:(lia))
    as (a' & Hset & _ & _ & Harr).
  exists a'. split; [done|]. by rewrite Harr, dense_array_123.
Defined.

Lemma append_toArray_witness :
  TrieLaws (gmap (list string)) ∧ clean array_123 ∧
  PersistentArray.size array_123 + 1 < 2 ^ 32 ∧
  ∃ a', PersistentArray.append 42 array_123 = Ok a' ∧
        PersistentArray.toArray a'
        = [Some 10; Some 20; Some 30; Some 42].
Proof.
  assert (PersistentArray.size array_123 + 1 < 2 ^ 32) as Hsize
    by (by vm_compute).
  split_and!; [apply gmap_trie_laws | apply clean_array_123 | done |].
  destruct (append_toArray (TrieLaws0 := gmap_trie_laws) 42 array_123
              clean_array_123 Hsize) as (a' & Hset & _ & _ & Harr).
  exists a'. split; [done|]. by rewrite Harr, dense_array_123.
Defined.

Lemma map_toArray_witness :
  TrieLaws (gmap (list string)) ∧ clean array_123 ∧
  PersistentArray.toArray array_123 = Some <$> [10; 20; 30] ∧
  ∃ r, PersistentArray.map (λ x i, x * 2) array_123 = Ok r ∧
       PersistentArray.toArray r = [Some 20; Some 40; Some 60].
Proof.
  split_and!;
    [apply gmap_trie_laws | apply clean_array_123 | apply dense_array_123 |].
  destruct (map_toArray (TrieLaws0 := gmap_trie_laws) (λ x i, x * 2)
              array_123 [10; 20; 30] clean_array_123 dense_array_123)
    as (r & Hmap & _ & Harr).
  by exists r.
Defined.

Lemma reduce_foldl_witness :
  clean array_123 ∧
  PersistentArray.toArray array_123 = Some <$> [10; 20; 30] ∧
  PersistentArray.reduce (λ acc x i, acc + x) 0 array_123 = 60.
Proof.
  split_and!; [apply clean_array_123 | apply dense_array_123 |].
  apply (reduce_foldl (λ acc x i, acc + x) 0
           array_123 [10; 20; 30] clean_array_123 dense_array_123).
Defined.

Lemma filter_toArray_witness :
  TrieLaws (gmap (list string)) ∧ clean array_123 ∧
  PersistentArray.toArray array_123 = Some <$> [10; 20; 30] ∧
  ∃ r, PersistentArray.filter (λ x i, bool_decide (10 < x)) array_123 = Ok r ∧
       PersistentArray.toArray r = [Some 20; Some 30].
Proof.
  split_and!;
    [apply gmap_trie_laws | apply clean_array_123 | apply dense_array_123 |].
  destruct (filter_toArray (TrieLaws0 := gmap_trie_laws)
              (λ x i, bool_decide (10 < x)) array_123 [10; 20; 30]
              clean_array_123 dense_array_123)
    as (r & Hfilter & _ & Harr).
  by exists r.
Defined.

Lemma slice_toArray_witness :
  TrieLaws (gmap (list string)) ∧ clean array_123 ∧
  PersistentArray.toArray array_123 = Some <$> [10; 20; 30] ∧
  ∃ r, PersistentArray.slice (Some 1) None array_123 = Ok r ∧
       PersistentArray.toArray r = [Some 20; Some 30].
Proof.
  split_and!;
    [apply gmap_trie_laws | apply clean_array_123 | apply dense_array_123 |].
  destruct (slice_toArray (TrieLaws0 := gmap_trie_laws) (Some 1) None
              array_123 [10; 20; 30] clean_array_123 dense_array_123)
    as (r & Hslice & _ & Harr).
  by exists r.
Defined.

End Persistent.
